(** * Black-Scholes pricing engine: [BlackScholesCalculator]

    A shallow embedding of the two static methods of
    [BlackScholesCalculator] in [options_calculator.py]
    ([black_scholes_price] and [calculate_greeks]) and the properties
    the specification states about them.

    Numbers.  The Python code computes with binary64 values.  The
    embedding computes with the real numbers [R] of the Standard
    Library: every arithmetic operation is the exact one, and rounding
    is not modelled.  Two operations of the source have no real value on
    part of their domain, and the embedding makes them fallible instead
    of giving them an arbitrary value there:
    - a division whose denominator is zero (Python raises
      [ZeroDivisionError] on Python numbers, numpy yields [inf] or
      [nan] with a warning);
    - [np.log] of a number that is not positive (numpy yields [-inf]
      or [nan] with a warning).
    Both are reported through the [result] type below, with the place
    of the failing operation.

    Strings.  [option_type] is a Python string and is embedded as a
    [string]; its default value ['call'] is not modelled, every call of
    the source passes the argument.

    Dictionaries.  [calculate_greeks] returns a Python [dict] with string
    keys; it is embedded as a [gmap string R].

    Contents: the embedding of the source, the formulas of the
    specification ([Spec]), the functions the proof of put-call parity
    needs, then the properties. *)

From Stdlib Require Import Reals Lra Sorted.
From stdpp Require Import gmap strings.

Open Scope R_scope.

(** ** Failing operations *)

(** The divisions of the source, by the line that holds them. *)
Inductive site : Set :=
  | SpotOverStrike   (* S / K                             lines 59, 75 *)
  | D1Denominator    (* ... / (sigma * np.sqrt(T))        lines 59, 75 *)
  | GammaDenominator (* ... / (S * sigma * np.sqrt(T))    line 85 *)
  | ThetaDenominator (* ... / (2 * np.sqrt(T))            lines 89, 92 *).

Inductive error : Set :=
  | DivisionByZero (where_ : site)
  | LogOfNonPositive.

Inductive result (A : Type) : Type :=
  | Ok (a : A)
  | Err (e : error).
Arguments Ok {A} a.
Arguments Err {A} e.

(** Sequencing: the first failure ends the evaluation.  With these two
    instances stdpp's [x ← m; k] is the sequencing of [result]. *)
#[global] Instance result_ret : MRet result := fun A a => Ok a.
#[global] Instance result_bind : MBind result := fun A B k m =>
  match m with
  | Ok a => k a
  | Err e => Err e
  end.

(** [x / y] at the place [s]. *)
Definition div_at (s : site) (x y : R) : result R :=
  if Req_dec_T y 0 then Err (DivisionByZero s) else Ok (x / y).

(** [np.log(x)]. *)
Definition np_log (x : R) : result R :=
  if Rlt_dec 0 x then Ok (ln x) else Err LogOfNonPositive.

(** [np.sqrt(x)]; the source reaches it only with [0 < x]. *)
Definition np_sqrt (x : R) : R := sqrt x.

(** [np.exp(x)]. *)
Definition np_exp (x : R) : R := exp x.

(** ** Comparisons and [max] *)

Definition Rleb (x y : R) : bool := if Rle_dec x y then true else false.
Definition Rltb (x y : R) : bool := if Rlt_dec x y then true else false.

(** Python's [max(a, b)]: the first argument is kept unless the second
    is strictly greater. *)
Definition py_max (a b : R) : R := if Rltb a b then b else a.

(** ** scipy's [norm] *)

(** [norm.pdf(x)]: [exp(-x**2/2) / sqrt(2*pi)]. *)
Definition norm_pdf (x : R) : R := exp (- x ^ 2 / 2) / sqrt (2 * PI).

Definition norm_pdf_integrable (a b : R) : Riemann_integrable norm_pdf a b.
Proof.
  assert (C : forall x, continuity_pt norm_pdf x).
  { intro x. unfold norm_pdf. reg. }
  destruct (Rle_dec a b) as [Hab | Hab].
  - apply continuity_implies_RiemannInt; [exact Hab | intros; apply C].
  - apply RiemannInt_P1.
    apply continuity_implies_RiemannInt; [lra | intros; apply C].
Qed.

(** [norm.cdf(x)]: scipy computes it as [0.5 * (1 + erf(x / sqrt(2)))],
    that is one half plus the integral of the density from [0] to [x]. *)
Definition norm_cdf (x : R) : R := 1 / 2 + RiemannInt (norm_pdf_integrable 0 x).

(** ** The calculator *)

Module BlackScholesCalculator.

(** [black_scholes_price(S, K, T, r, sigma, option_type)], lines 54-67. *)
Definition black_scholes_price (S K T r sigma : R) (option_type : string)
  : result R :=
  if Rleb T 0 || Rleb sigma 0 then Ok 0
  else
    q ← div_at SpotOverStrike S K;
    l ← np_log q;
    d1 ← div_at D1Denominator
           (l + (r + 0.5 * sigma ^ 2) * T) (sigma * np_sqrt T);
    let d2 := d1 - sigma * np_sqrt T in
    let price :=
      if String.eqb option_type "call"
      then S * norm_cdf d1 - K * np_exp (- r * T) * norm_cdf d2
      else K * np_exp (- r * T) * norm_cdf (- d2) - S * norm_cdf (- d1) in
    Ok (py_max 0 price).

(** [calculate_greeks(S, K, T, r, sigma, option_type)], lines 70-110. *)
Definition calculate_greeks (S K T r sigma : R) (option_type : string)
  : result (gmap string R) :=
  if Rleb T 0
  then Ok {[ "delta" := 0; "gamma" := 0; "theta" := 0; "vega" := 0;
             "rho" := 0 ]}
  else
    q ← div_at SpotOverStrike S K;
    l ← np_log q;
    d1 ← div_at D1Denominator
           (l + (r + 0.5 * sigma ^ 2) * T) (sigma * np_sqrt T);
    let d2 := d1 - sigma * np_sqrt T in
    let delta :=
      if String.eqb option_type "call"
      then norm_cdf d1
      else norm_cdf d1 - 1 in
    gamma ← div_at GammaDenominator (norm_pdf d1) (S * sigma * np_sqrt T);
    theta ←
      (if String.eqb option_type "call"
       then
         t ← div_at ThetaDenominator
               (- (S * norm_pdf d1 * sigma)) (2 * np_sqrt T);
         Ok (t - r * K * np_exp (- r * T) * norm_cdf d2)
       else
         t ← div_at ThetaDenominator
               (- (S * norm_pdf d1 * sigma)) (2 * np_sqrt T);
         Ok (t + r * K * np_exp (- r * T) * norm_cdf (- d2)));
    let vega := S * norm_pdf d1 * np_sqrt T in
    let rho :=
      if String.eqb option_type "call"
      then K * T * np_exp (- r * T) * norm_cdf d2
      else - K * T * np_exp (- r * T) * norm_cdf (- d2) in
    Ok {[ "delta" := delta; "gamma" := gamma; "theta" := theta / 365;
          "vega" := vega / 100; "rho" := rho / 100 ]}.

End BlackScholesCalculator.

(** ** The specification's formulas

    The definitions of this module follow the words of the
    specification (sections 3, 4.2 and 4.3), not the source: a contract
    has a side, the price is a non-negative real and the sensitivities
    are a record of five reals.  The theorems below compare them with
    what the source computes. *)

Module Spec.

Inductive option_side : Set := Call | Put.

Record GreeksResult : Type := {
  delta : R;
  gamma : R;
  theta : R;
  vega : R;
  rho : R
}.

Section Formulas.
Variables S K T r sigma : R.

Definition d1 : R :=
  (ln (S / K) + (r + 0.5 * sigma ^ 2) * T) / (sigma * sqrt T).

Definition d2 : R := d1 - sigma * sqrt T.

Definition formula (side : option_side) : R :=
  match side with
  | Call => S * norm_cdf d1 - K * exp (- (r * T)) * norm_cdf d2
  | Put => K * exp (- (r * T)) * norm_cdf (- d2) - S * norm_cdf (- d1)
  end.

Definition price (side : option_side) : R := Rmax 0 (formula side).

Definition annual_theta (side : option_side) : R :=
  match side with
  | Call => - (S * norm_pdf d1 * sigma) / (2 * sqrt T)
            - r * K * exp (- (r * T)) * norm_cdf d2
  | Put => - (S * norm_pdf d1 * sigma) / (2 * sqrt T)
           + r * K * exp (- (r * T)) * norm_cdf (- d2)
  end.

Definition annual_vega : R := S * norm_pdf d1 * sqrt T.

Definition annual_rho (side : option_side) : R :=
  match side with
  | Call => K * T * exp (- (r * T)) * norm_cdf d2
  | Put => - (K * T * exp (- (r * T)) * norm_cdf (- d2))
  end.

Definition greeks (side : option_side) : GreeksResult := {|
  delta := match side with
           | Call => norm_cdf d1
           | Put => norm_cdf d1 - 1
           end;
  gamma := norm_pdf d1 / (S * sigma * sqrt T);
  theta := annual_theta side / 365;
  vega := annual_vega / 100;
  rho := annual_rho side / 100
|}.
End Formulas.

End Spec.

(** The string the caller passes for each side (the select box of
    [main], line 123). *)
Definition side_name (side : Spec.option_side) : string :=
  match side with
  | Spec.Call => "call"
  | Spec.Put => "put"
  end.

(** The keys of the dictionary [calculate_greeks] returns. *)
Definition greek_names : gset string :=
  {[ "delta"; "gamma"; "theta"; "vega"; "rho" ]}.

(** ** Auxiliary functions (for put-call parity)

    Put-call parity holds because neither clamp is active, and that rests
    on the value of the Gaussian integral.  These are the functions its
    proof is stated with. *)

Section ContinuousIntegral.
Variable f : R -> R.
Hypothesis f_cont : continuity f.

Definition cont_integrable (a b : R) : Riemann_integrable f a b.
Proof.
  destruct (Rle_dec a b) as [Hab | Hab].
  - apply continuity_implies_RiemannInt; [exact Hab | intros; apply f_cont].
  - apply RiemannInt_P1.
    apply continuity_implies_RiemannInt; [lra | intros; apply f_cont].
Qed.

(** The integral of a continuous function from [a] to [b]. *)
Definition integral (a b : R) : R := RiemannInt (cont_integrable a b).

End ContinuousIntegral.

(** The integral of the density from [0]: [norm_cdf x - 1/2]. *)
Definition half_mass (x : R) : R := RiemannInt (norm_pdf_integrable 0 x).

Definition gauss_kernel (t x : R) : R :=
  exp (- (t ^ 2 * (1 + x ^ 2)) / 2) / (1 + x ^ 2).

(** The derivative of [gauss_kernel] in [t]. *)
Definition gauss_kernel_dt (t x : R) : R :=
  - t * exp (- (t ^ 2 * (1 + x ^ 2)) / 2).

Definition gauss_kernel_integrable (t : R)
  : Riemann_integrable (gauss_kernel t) 0 1.
Proof.
  apply continuity_implies_RiemannInt; [lra |].
  intros x _. unfold gauss_kernel. reg.
  apply Rgt_not_eq. pose proof (pow2_ge_0 x) as H. simpl in *. lra.
Qed.

Definition gauss_kernel_dt_integrable (t : R)
  : Riemann_integrable (gauss_kernel_dt t) 0 1.
Proof.
  apply continuity_implies_RiemannInt; [lra |].
  intros x _. unfold gauss_kernel_dt. reg.
Qed.

Definition gauss_aux (t : R) : R := RiemannInt (gauss_kernel_integrable t).

Definition gauss_aux_dt (t : R) : R := RiemannInt (gauss_kernel_dt_integrable t).

(** [tilt v x] is the Black-Scholes value of a call, in units of the
    discounted strike, at [d1 = x] and [d1 - d2 = v]. *)
Definition tilt (v x : R) : R :=
  exp (x * v - v ^ 2 / 2) * norm_cdf x - norm_cdf (x - v).

(** ** Results as numbers

    The value a call of the engine returns, read as a number, so that a
    result can be followed along one parameter.  Where the engine fails
    the number is [0]; no property below looks at it there. *)

(** The side the source dispatches to: the call formulas for ['call'],
    the put formulas for everything else. *)
Definition side_of (option_type : string) : Spec.option_side :=
  if String.eqb option_type "call" then Spec.Call else Spec.Put.

Definition price_value (S K T r sigma : R) (option_type : string) : R :=
  match BlackScholesCalculator.black_scholes_price S K T r sigma option_type
  with
  | Ok v => v
  | Err _ => 0
  end.

Definition greek_value (name : string) (S K T r sigma : R)
    (option_type : string) : R :=
  match BlackScholesCalculator.calculate_greeks S K T r sigma option_type with
  | Ok g => default 0 (g !! name)
  | Err _ => 0
  end.

(** What a call returns, as a relation: [black_scholes_price(...)] is
    [v], and [calculate_greeks(...)[name]] is [v]. *)
Definition returns_price (S K T r sigma : R) (option_type : string)
    (v : R) : Prop :=
  BlackScholesCalculator.black_scholes_price S K T r sigma option_type = Ok v.

Definition returns_greek (name : string) (S K T r sigma : R)
    (option_type : string) (v : R) : Prop :=
  exists g : gmap string R,
    BlackScholesCalculator.calculate_greeks S K T r sigma option_type = Ok g
    /\ g !! name = Some v.

(** ** numpy's [linspace] *)

(** [np.linspace(start, stop, num)]: [num] evenly spaced numbers from
    [start] to [stop], both included.  numpy computes
    [arange(0, num) * step + start] with [step = (stop - start) / (num - 1)]
    and, for [num = 1], the single number [start]. *)
Definition np_linspace (start stop : R) (num : nat) : list R :=
  match num with
  | O => []
  | 1%nat => [start]
  | _ =>
    let step := (stop - start) / INR (num - 1) in
    map (fun i => INR i * step + start) (seq 0 num)
  end.

(** ** The page: [main]

    [main] reads the six parameters from its widgets, calls the
    calculator and lays the results out.  The definitions below are the
    computations it makes, each under the name of the local variable
    that holds it in the source; the calls that only draw (titles,
    charts, tables) and the formatting of numbers into text are left
    out, so a table is the list of the numbers it shows. *)

Module Main.

(** What a computation of [main] can raise. *)
Inductive exception : Set :=
  | EngineError (e : error)   (* an operation of the calculator failed *)
  | KeyError (key : string)   (* [d[key]] on a dictionary without [key] *)
  | ZeroDivisionError         (* [x / 0] on Python numbers *).

Inductive run (A : Type) : Type :=
  | Return (a : A)
  | Raise (e : exception).
Arguments Return {A} a.
Arguments Raise {A} e.

#[global] Instance run_ret : MRet run := fun A a => Return a.
#[global] Instance run_bind : MBind run := fun A B k m =>
  match m with
  | Return a => k a
  | Raise e => Raise e
  end.

(** Line 126. *)
Module calculator := BlackScholesCalculator.

(** A call of the calculator from [main]. *)
Definition engine {A : Type} (m : result A) : run A :=
  match m with
  | Ok a => Return a
  | Err e => Raise (EngineError e)
  end.

(** [d[key]]. *)
Definition getitem (d : gmap string R) (key : string) : run R :=
  match d !! key with
  | Some v => Return v
  | None => Raise (KeyError key)
  end.

(** Lines 131-134, and line 174 for each spot of the sweep. *)
Definition intrinsic_value (S K : R) (option_type : string) : R :=
  if String.eqb option_type "call" then py_max 0 (S - K) else py_max 0 (K - S).


(** Line 172. *)
Definition spot_range (S : R) : list R := np_linspace (S * 0.7) (S * 1.3) 50.

(** Line 173. *)
Definition prices (S K T r sigma : R) (option_type : string) : run (list R) :=
  mapM (fun spot =>
          engine (calculator.black_scholes_price spot K T r sigma option_type))
       (spot_range S).

(** Line 174. *)
Definition intrinsic_values (S K : R) (option_type : string) : list R :=
  map (fun spot => intrinsic_value spot K option_type) (spot_range S).




(** Line 268. *)
Definition moneyness (S K : R) : run R :=
  if Req_dec_T K 0 then Raise ZeroDivisionError
  else Return ((S / K - 1) * 100).

(** Line 270: the label shown beside the moneyness. *)
Definition moneyness_label (moneyness : R) (option_type : string) : string :=
  if (Rltb 0 moneyness && String.eqb option_type "call")
     || (Rltb moneyness 0 && String.eqb option_type "put")
  then "ITM" else "OTM".

(** Line 273. *)
Definition days_to_expiry (T : R) : R := T * 365.

(** Lines 285-291: the name and the spot of each scenario. *)
Definition scenarios (S : R) : list (string * R) :=
  [ ("Baisse 10%", S * 0.9); ("Baisse 5%", S * 0.95); ("Actuel", S);
    ("Hausse 5%", S * 1.05); ("Hausse 10%", S * 1.1) ]%string.

(** A row of the scenario table, before its numbers are formatted. *)
Record scenario_result : Type := {
  scenario_name : string;
  underlying_price : R;
  option_price : R;
  pnl : R;
  pnl_pct : R
}.

(** Lines 127 and 293-304. *)
Definition scenario_results (S K T r sigma : R) (option_type : string)
  : run (list scenario_result) :=
  price ← engine (calculator.black_scholes_price S K T r sigma option_type);
  mapM (fun scenario : string * R =>
          new_price ←
            engine (calculator.black_scholes_price (snd scenario) K T r sigma
                                                   option_type);
          let pnl := new_price - price in
          let pnl_pct := if Rltb 0 price then pnl / price * 100 else 0 in
          Return {| scenario_name := fst scenario;
                    underlying_price := snd scenario;
                    option_price := new_price;
                    pnl := pnl;
                    pnl_pct := pnl_pct |})
       (scenarios S).




(** A row of the strategies of the fourth tab: its name, its cost, its
    largest gain and loss (a number, or a text where the source shows
    one) and its break-even spot.  The two texts of a row that are shown
    as they are, [description] and [conseil], are left out. *)
Record strategy : Type := {
  nom : string;
  cout : R;
  max_gain : string + R;
  max_perte : string + R;
  seuil : R
}.

(** Lines 127 and 342-379.  The source prices the put anew for every
    field that shows it. *)
Definition strategies (S K T r sigma : R) (option_type : string)
  : run (list strategy) :=
  price ← engine (calculator.black_scholes_price S K T r sigma option_type);
  lp_cout ← engine (calculator.black_scholes_price S K T r sigma "put");
  lp_gain ← engine (calculator.black_scholes_price S K T r sigma "put");
  lp_perte ← engine (calculator.black_scholes_price S K T r sigma "put");
  lp_seuil ← engine (calculator.black_scholes_price S K T r sigma "put");
  pp_cout ← engine (calculator.black_scholes_price S K T r sigma "put");
  pp_perte ← engine (calculator.black_scholes_price S K T r sigma "put");
  pp_seuil ← engine (calculator.black_scholes_price S K T r sigma "put");
  Return
    [ {| nom := "Long Call";
         cout := price;
         max_gain := inl "Illimité";
         max_perte := inr price;
         seuil := K + price |};
      {| nom := "Long Put";
         cout := lp_cout;
         max_gain := inr (K - lp_gain);
         max_perte := inr lp_perte;
         seuil := K - lp_seuil |};
      {| nom := "Covered Call";
         cout := - price;
         max_gain := inr (if Rltb S K then (K - S) + price else price);
         max_perte := inl "Limitée à la baisse de l'action";
         seuil := S - price |};
      {| nom := "Protective Put";
         cout := pp_cout;
         max_gain := inl "Illimité (moins la prime)";
         max_perte := inr (S - K + pp_perte);
         seuil := S + pp_seuil |} ]%string.

End Main.

(** * Properties *)

Import BlackScholesCalculator.

(** ** Comparisons, [max] and the fallible operations *)

Lemma Rleb_true x y : x <= y -> Rleb x y = true.
Proof. intros H. unfold Rleb. destruct (Rle_dec x y); [reflexivity | contradiction]. Qed.

Lemma Rleb_false x y : y < x -> Rleb x y = false.
Proof. intros H. unfold Rleb. destruct (Rle_dec x y); [lra | reflexivity]. Qed.

Lemma py_max_Rmax a b : py_max a b = Rmax a b.
Proof.
  unfold py_max, Rltb, Rmax.
  destruct (Rlt_dec a b), (Rle_dec a b); lra.
Qed.

Lemma py_max_nonneg b : 0 <= py_max 0 b.
Proof. rewrite py_max_Rmax. apply Rmax_l. Qed.

Lemma div_at_ok s x y : y <> 0 -> div_at s x y = Ok (x / y).
Proof. intros H. unfold div_at. destruct (Req_dec_T y 0); [contradiction | reflexivity]. Qed.

Lemma div_at_zero s x y : y = 0 -> div_at s x y = Err (DivisionByZero s).
Proof. intros H. unfold div_at. destruct (Req_dec_T y 0); [reflexivity | contradiction]. Qed.

Lemma np_log_ok x : 0 < x -> np_log x = Ok (ln x).
Proof. intros H. unfold np_log. destruct (Rlt_dec 0 x); [reflexivity | contradiction]. Qed.

Lemma np_sqrt_pos T : 0 < T -> 0 < np_sqrt T.
Proof. apply sqrt_lt_R0. Qed.

Lemma ratio_pos S K : 0 < S -> 0 < K -> 0 < S / K.
Proof. intros HS HK. apply Rdiv_lt_0_compat; assumption. Qed.

Lemma np_exp_neg_mult r T : np_exp (- r * T) = exp (- (r * T)).
Proof. unfold np_exp. f_equal. ring. Qed.

(** Positivity side conditions of the general branch. *)
Create HintDb bs_pos.
#[local] Hint Resolve ratio_pos np_sqrt_pos Rmult_lt_0_compat Rlt_0_2 : bs_pos.

(** One successful step of the evaluation: a division by a positive
    number or the logarithm of a positive number. *)
Ltac run_step :=
  first [ rewrite div_at_ok by (apply not_eq_sym, Rlt_not_eq; auto with bs_pos)
        | rewrite np_log_ok by auto with bs_pos ];
  cbn [mbind result_bind].

(** ** The guards *)

Lemma price_guard S K T r sigma ot :
  T <= 0 \/ sigma <= 0 -> black_scholes_price S K T r sigma ot = Ok 0.
Proof.
  intros H. unfold black_scholes_price.
  destruct H as [H | H].
  - rewrite (Rleb_true _ _ H). reflexivity.
  - rewrite (Rleb_true _ _ H). rewrite orb_true_r. reflexivity.
Qed.

Lemma greeks_guard S K T r sigma ot :
  T <= 0 ->
  calculate_greeks S K T r sigma ot
  = Ok {[ "delta" := 0; "gamma" := 0; "theta" := 0; "vega" := 0; "rho" := 0 ]}.
Proof.
  intros H. unfold calculate_greeks. rewrite (Rleb_true _ _ H). reflexivity.
Qed.

(** ** The general branch *)

Lemma price_general S K T r sigma ot :
  0 < S -> 0 < K -> 0 < T -> 0 < sigma ->
  black_scholes_price S K T r sigma ot
  = Ok (py_max 0
          (if String.eqb ot "call"
           then S * norm_cdf (Spec.d1 S K T r sigma)
                - K * np_exp (- r * T) * norm_cdf (Spec.d2 S K T r sigma)
           else K * np_exp (- r * T) * norm_cdf (- Spec.d2 S K T r sigma)
                - S * norm_cdf (- Spec.d1 S K T r sigma))).
Proof.
  intros HS HK HT Hs. unfold black_scholes_price.
  rewrite (Rleb_false _ _ HT), (Rleb_false _ _ Hs). cbn [orb].
  do 3 run_step. reflexivity.
Qed.

(** Whatever the parameters, a price that is returned is [0] or the
    clamp of a formula value. *)
Lemma price_shape S K T r sigma ot v :
  black_scholes_price S K T r sigma ot = Ok v ->
  v = 0 \/ exists p, v = py_max 0 p.
Proof.
  unfold black_scholes_price.
  destruct (Rleb T 0 || Rleb sigma 0).
  - intros [= <-]. left. reflexivity.
  - destruct (div_at SpotOverStrike S K) as [q | e];
      cbn [mbind result_bind]; [| discriminate].
    destruct (np_log q) as [l | e]; cbn [mbind result_bind]; [| discriminate].
    destruct (div_at D1Denominator _ _) as [d1 | e];
      cbn [mbind result_bind]; [| discriminate].
    intros [= <-]. right. eexists. reflexivity.
Qed.

Lemma price_total S K T r sigma ot :
  0 < S -> 0 < K -> exists v, black_scholes_price S K T r sigma ot = Ok v.
Proof.
  intros HS HK.
  destruct (Rle_lt_dec T 0) as [HT | HT].
  { exists 0. apply price_guard. left. exact HT. }
  destruct (Rle_lt_dec sigma 0) as [Hs | Hs].
  { exists 0. apply price_guard. right. exact Hs. }
  eexists. apply price_general; assumption.
Qed.

(** C1. For every parameter tuple the value [black_scholes_price]
    returns is non-negative; with a positive spot and a positive strike
    it does return a value. *)
Theorem price_nonnegative S K T r sigma ot :
  (forall v, black_scholes_price S K T r sigma ot = Ok v -> 0 <= v) /\
  (0 < S -> 0 < K ->
   exists v, black_scholes_price S K T r sigma ot = Ok v /\ 0 <= v).
Proof.
  assert (Hv : forall v, black_scholes_price S K T r sigma ot = Ok v -> 0 <= v).
  { intros v Hv. destruct (price_shape _ _ _ _ _ _ _ Hv) as [-> | [p ->]].
    - lra.
    - apply py_max_nonneg. }
  split; [exact Hv |].
  intros HS HK. destruct (price_total S K T r sigma ot HS HK) as [v Hp].
  exists v. split; [exact Hp | apply Hv; exact Hp].
Qed.

Lemma price_nonnegative_witness :
  (forall v, black_scholes_price 100 105 (1/4) (5/100) (2/10) "call" = Ok v ->
             0 <= v) /\
  exists v, black_scholes_price 100 105 (1/4) (5/100) (2/10) "call" = Ok v
            /\ 0 <= v.
Proof.
  destruct (price_nonnegative 100 105 (1/4) (5/100) (2/10) "call") as [H1 H2].
  split; [exact H1 | apply H2; lra].
Defined.

Lemma greeks_general S K T r sigma ot :
  0 < S -> 0 < K -> 0 < T -> 0 < sigma ->
  let d1 := Spec.d1 S K T r sigma in
  let d2 := Spec.d2 S K T r sigma in
  calculate_greeks S K T r sigma ot
  = Ok {[ "delta" := if String.eqb ot "call"
                     then norm_cdf d1 else norm_cdf d1 - 1;
          "gamma" := norm_pdf d1 / (S * sigma * np_sqrt T);
          "theta" := (if String.eqb ot "call"
                      then - (S * norm_pdf d1 * sigma) / (2 * np_sqrt T)
                           - r * K * np_exp (- r * T) * norm_cdf d2
                      else - (S * norm_pdf d1 * sigma) / (2 * np_sqrt T)
                           + r * K * np_exp (- r * T) * norm_cdf (- d2))
                     / 365;
          "vega" := S * norm_pdf d1 * np_sqrt T / 100;
          "rho" := (if String.eqb ot "call"
                    then K * T * np_exp (- r * T) * norm_cdf d2
                    else - K * T * np_exp (- r * T) * norm_cdf (- d2))
                   / 100 ]}.
Proof.
  intros HS HK HT Hs d1 d2. unfold calculate_greeks.
  rewrite (Rleb_false _ _ HT).
  do 4 run_step.
  rewrite div_at_ok by (apply not_eq_sym, Rlt_not_eq; auto with bs_pos).
  destruct (String.eqb ot "call"); reflexivity.
Qed.

(** The dictionary of [calculate_greeks] always has the five keys. *)
Lemma greeks_keys (a b c d e : R) :
  dom ({[ "delta" := a; "gamma" := b; "theta" := c; "vega" := d;
          "rho" := e ]} : gmap string R) = greek_names.
Proof. unfold greek_names. rewrite !dom_insert_L. set_solver. Qed.

Lemma greeks_never_partial S K T r sigma ot g :
  calculate_greeks S K T r sigma ot = Ok g -> dom g = greek_names.
Proof.
  unfold calculate_greeks.
  destruct (Rleb T 0).
  { intros [= <-]. apply greeks_keys. }
  destruct (div_at SpotOverStrike S K) as [q | e];
    cbn [mbind result_bind]; [| discriminate].
  destruct (np_log q) as [l | e]; cbn [mbind result_bind]; [| discriminate].
  destruct (div_at D1Denominator _ _) as [d1 | e];
    cbn [mbind result_bind]; [| discriminate].
  destruct (div_at GammaDenominator _ _) as [gamma | e];
    cbn [mbind result_bind]; [| discriminate].
  destruct (String.eqb ot "call");
    (destruct (div_at ThetaDenominator _ _) as [t | e];
     cbn [mbind result_bind]; [| discriminate]);
    intros [= <-]; apply greeks_keys.
Qed.

(** ** Degenerate inputs *)

(** C3. With a positive spot and strike, a zero time to expiry or a zero
    volatility makes [black_scholes_price] return exactly [0]; the
    division by [sigma * np.sqrt(T)] of the general formula, which has
    no value there, is not evaluated. *)
Theorem price_degenerate S K T r sigma ot :
  0 < S -> 0 < K -> T = 0 \/ sigma = 0 ->
  black_scholes_price S K T r sigma ot = Ok 0 /\
  forall x, div_at D1Denominator x (sigma * np_sqrt T)
            = Err (DivisionByZero D1Denominator).
Proof.
  intros _ _ H. split.
  - apply price_guard. destruct H as [-> | ->]; [left | right]; lra.
  - intros x. apply div_at_zero.
    destruct H as [-> | ->].
    + unfold np_sqrt. rewrite sqrt_0. ring.
    + ring.
Qed.

Lemma price_degenerate_witness :
  black_scholes_price 100 105 (1/4) (5/100) 0 "put" = Ok 0 /\
  forall x, div_at D1Denominator x (0 * np_sqrt (1/4))
            = Err (DivisionByZero D1Denominator).
Proof.
  apply (price_degenerate 100 105 (1/4) (5/100) 0 "put");
    [lra | lra | right; reflexivity].
Defined.

(** C4. With a positive spot and strike and a time to expiry that is
    not positive, [calculate_greeks] returns a dictionary that has the
    five keys, each with the value [0]. *)
Theorem greeks_degenerate S K T r sigma ot :
  0 < S -> 0 < K -> T <= 0 ->
  exists g : gmap string R,
    calculate_greeks S K T r sigma ot = Ok g /\
    dom g = greek_names /\
    forall k, k ∈ greek_names -> g !! k = Some 0.
Proof.
  intros _ _ HT. eexists. split; [apply greeks_guard; exact HT |].
  split; [apply greeks_keys |].
  intros k Hk. unfold greek_names in Hk.
  repeat (apply elem_of_union in Hk as [Hk | Hk]);
    apply elem_of_singleton in Hk; subst k; reflexivity.
Qed.

Lemma greeks_degenerate_witness :
  exists g : gmap string R,
    calculate_greeks 100 105 0 (5/100) (2/10) "call" = Ok g /\
    dom g = greek_names /\
    forall k, k ∈ greek_names -> g !! k = Some 0.
Proof.
  apply (greeks_degenerate 100 105 0 (5/100) (2/10) "call"); lra.
Defined.

(** ** The formulas *)

(** C5. For positive spot, strike, time and volatility,
    [black_scholes_price] returns the specification's price: the
    Black-Scholes value of the call, or of the put, on [d1] and [d2],
    clamped at [0]. *)
Theorem price_formula S K T r sigma side :
  0 < S -> 0 < K -> 0 < T -> 0 < sigma ->
  black_scholes_price S K T r sigma (side_name side)
  = Ok (Spec.price S K T r sigma side).
Proof.
  intros HS HK HT Hs.
  rewrite price_general by assumption.
  rewrite py_max_Rmax, np_exp_neg_mult.
  destruct side; reflexivity.
Qed.

Lemma price_formula_witness :
  black_scholes_price 100 105 (1/4) (5/100) (2/10) "put"
  = Ok (Spec.price 100 105 (1/4) (5/100) (2/10) Spec.Put).
Proof.
  apply (price_formula 100 105 (1/4) (5/100) (2/10) Spec.Put); lra.
Defined.

(** C6. For positive spot, strike, time and volatility,
    [calculate_greeks] returns the five sensitivities of the
    specification: delta and gamma as they are, theta per day (over
    365), vega and rho per percentage point (over 100). *)
Theorem greeks_formulas S K T r sigma side :
  0 < S -> 0 < K -> 0 < T -> 0 < sigma ->
  exists g : gmap string R,
    calculate_greeks S K T r sigma (side_name side) = Ok g /\
    dom g = greek_names /\
    g !! "delta" = Some (Spec.delta (Spec.greeks S K T r sigma side)) /\
    g !! "gamma" = Some (Spec.gamma (Spec.greeks S K T r sigma side)) /\
    g !! "theta" = Some (Spec.theta (Spec.greeks S K T r sigma side)) /\
    g !! "vega" = Some (Spec.vega (Spec.greeks S K T r sigma side)) /\
    g !! "rho" = Some (Spec.rho (Spec.greeks S K T r sigma side)).
Proof.
  intros HS HK HT Hs. eexists.
  split; [apply greeks_general; assumption |].
  split; [apply greeks_keys |].
  rewrite np_exp_neg_mult.
  destruct side; cbn [side_name String.eqb Ascii.eqb Bool.eqb];
    repeat split; try reflexivity.
  replace (Spec.rho (Spec.greeks S K T r sigma Spec.Put))
    with (- K * T * exp (- (r * T)) * norm_cdf (- Spec.d2 S K T r sigma) / 100)
    by (unfold Spec.greeks, Spec.annual_rho; cbn [Spec.rho]; field).
  reflexivity.
Qed.

Lemma greeks_formulas_witness :
  exists g : gmap string R,
    calculate_greeks 100 105 (1/4) (5/100) (2/10) "call" = Ok g /\
    dom g = greek_names /\
    g !! "delta"
    = Some (Spec.delta (Spec.greeks 100 105 (1/4) (5/100) (2/10) Spec.Call)) /\
    g !! "gamma"
    = Some (Spec.gamma (Spec.greeks 100 105 (1/4) (5/100) (2/10) Spec.Call)) /\
    g !! "theta"
    = Some (Spec.theta (Spec.greeks 100 105 (1/4) (5/100) (2/10) Spec.Call)) /\
    g !! "vega"
    = Some (Spec.vega (Spec.greeks 100 105 (1/4) (5/100) (2/10) Spec.Call)) /\
    g !! "rho"
    = Some (Spec.rho (Spec.greeks 100 105 (1/4) (5/100) (2/10) Spec.Call)).
Proof.
  apply (greeks_formulas 100 105 (1/4) (5/100) (2/10) Spec.Call); lra.
Defined.

(** ** Gamma and vega *)

Lemma norm_pdf_pos x : 0 < norm_pdf x.
Proof.
  unfold norm_pdf. apply Rdiv_lt_0_compat.
  - apply exp_pos.
  - apply sqrt_lt_R0. pose proof PI_RGT_0. lra.
Qed.

(** C8. For positive spot, strike, time and volatility, the gamma and
    the vega that [calculate_greeks] returns are non-negative, and they
    are the same for a call and for a put. *)
Theorem gamma_vega_nonneg_same S K T r sigma :
  0 < S -> 0 < K -> 0 < T -> 0 < sigma ->
  exists (gc gp : gmap string R) (gamma vega : R),
    calculate_greeks S K T r sigma "call" = Ok gc /\
    calculate_greeks S K T r sigma "put" = Ok gp /\
    gc !! "gamma" = Some gamma /\ gp !! "gamma" = Some gamma /\
    gc !! "vega" = Some vega /\ gp !! "vega" = Some vega /\
    0 <= gamma /\ 0 <= vega.
Proof.
  intros HS HK HT Hs.
  pose proof (np_sqrt_pos T HT) as Hq.
  pose proof (norm_pdf_pos (Spec.d1 S K T r sigma)) as Hp.
  do 2 eexists.
  exists (norm_pdf (Spec.d1 S K T r sigma) / (S * sigma * np_sqrt T)).
  exists (S * norm_pdf (Spec.d1 S K T r sigma) * np_sqrt T / 100).
  split; [apply greeks_general; assumption |].
  split; [apply greeks_general; assumption |].
  repeat (split; [reflexivity |]).
  assert (Hd : 0 < S * sigma * np_sqrt T)
    by (repeat apply Rmult_lt_0_compat; assumption).
  assert (Hv : 0 < S * norm_pdf (Spec.d1 S K T r sigma) * np_sqrt T)
    by (apply Rmult_lt_0_compat; [apply Rmult_lt_0_compat |]; assumption).
  split.
  - apply Rlt_le. apply Rdiv_lt_0_compat; assumption.
  - lra.
Qed.

Lemma gamma_vega_nonneg_same_witness :
  exists (gc gp : gmap string R) (gamma vega : R),
    calculate_greeks 100 105 (1/4) (5/100) (2/10) "call" = Ok gc /\
    calculate_greeks 100 105 (1/4) (5/100) (2/10) "put" = Ok gp /\
    gc !! "gamma" = Some gamma /\ gp !! "gamma" = Some gamma /\
    gc !! "vega" = Some vega /\ gp !! "vega" = Some vega /\
    0 <= gamma /\ 0 <= vega.
Proof.
  apply (gamma_vega_nonneg_same 100 105 (1/4) (5/100) (2/10)); lra.
Defined.

(** ** The two guards differ *)

(** C9. [black_scholes_price] returns [0] as soon as the time or the
    volatility is not positive; [calculate_greeks] returns its zeros
    only when the time is not positive, so with a zero volatility and a
    positive time (spot and strike positive) it goes on to [d1], whose
    denominator [sigma * np.sqrt(T)] is zero. *)
Theorem guards_asymmetric S K T r sigma ot :
  (T <= 0 \/ sigma <= 0 -> black_scholes_price S K T r sigma ot = Ok 0) /\
  (T <= 0 ->
   calculate_greeks S K T r sigma ot
   = Ok {[ "delta" := 0; "gamma" := 0; "theta" := 0; "vega" := 0;
           "rho" := 0 ]}) /\
  (0 < S -> 0 < K -> 0 < T -> sigma = 0 ->
   sigma * np_sqrt T = 0 /\
   calculate_greeks S K T r sigma ot = Err (DivisionByZero D1Denominator)).
Proof.
  split; [apply price_guard |].
  split; [apply greeks_guard |].
  intros HS HK HT ->. split; [ring |].
  unfold calculate_greeks.
  rewrite (Rleb_false _ _ HT).
  do 2 run_step.
  rewrite div_at_zero by ring. reflexivity.
Qed.

Lemma guards_asymmetric_witness :
  black_scholes_price 100 105 (1/4) (5/100) 0 "call" = Ok 0 /\
  0 * np_sqrt (1/4) = 0 /\
  calculate_greeks 100 105 (1/4) (5/100) 0 "call"
  = Err (DivisionByZero D1Denominator).
Proof.
  destruct (guards_asymmetric 100 105 (1/4) (5/100) 0 "call") as (Hp & _ & Hg).
  split; [apply Hp; right; lra | apply Hg; lra].
Defined.

(** ** The side *)

Lemma not_call ot : ot <> "call"%string -> String.eqb ot "call" = false.
Proof. apply String.eqb_neq. Qed.

(** C10. Every [option_type] other than the string ["call"] is priced,
    and gets the sensitivities, of a put. *)
Theorem other_side_is_put S K T r sigma ot :
  ot <> "call"%string ->
  black_scholes_price S K T r sigma ot
  = black_scholes_price S K T r sigma "put" /\
  calculate_greeks S K T r sigma ot = calculate_greeks S K T r sigma "put".
Proof.
  intros H. apply not_call in H.
  unfold black_scholes_price, calculate_greeks. rewrite H.
  split; reflexivity.
Qed.

Lemma other_side_is_put_witness :
  black_scholes_price 100 105 (1/4) (5/100) (2/10) "CALL"
  = black_scholes_price 100 105 (1/4) (5/100) (2/10) "put" /\
  calculate_greeks 100 105 (1/4) (5/100) (2/10) "CALL"
  = calculate_greeks 100 105 (1/4) (5/100) (2/10) "put".
Proof.
  apply (other_side_is_put 100 105 (1/4) (5/100) (2/10) "CALL").
  discriminate.
Defined.

(** ** No validation of the parameters *)

(** C2, as the specification states it, fails: with a spot of [0] and
    a strike of [-5] (and a zero time to expiry) both operations return
    their zero result. *)
Lemma invalid_parameters_not_rejected :
  0 <= 0 /\ -5 <= 0 /\
  black_scholes_price 0 (-5) 0 (5/100) (2/10) "call" = Ok 0 /\
  calculate_greeks 0 (-5) 0 (5/100) (2/10) "call"
  = Ok {[ "delta" := 0; "gamma" := 0; "theta" := 0; "vega" := 0;
          "rho" := 0 ]}.
Proof.
  split; [lra |]. split; [lra |].
  split; [apply price_guard; left; lra | apply greeks_guard; lra].
Qed.

(** C2, amended. Neither operation checks its parameters. Whatever the
    spot, the strike, the rate and the volatility, a time to expiry that
    is not positive gives the price [0] and the five zero sensitivities;
    whatever the spot, the strike, the rate and the time, a volatility
    that is not positive gives the price [0]; and with positive spot,
    strike, time and volatility both operations return a result for
    every rate, a negative one included. *)
Theorem parameters_not_validated S K T r sigma ot :
  (T <= 0 ->
   black_scholes_price S K T r sigma ot = Ok 0 /\
   calculate_greeks S K T r sigma ot
   = Ok {[ "delta" := 0; "gamma" := 0; "theta" := 0; "vega" := 0;
           "rho" := 0 ]}) /\
  (sigma <= 0 -> black_scholes_price S K T r sigma ot = Ok 0) /\
  (0 < S -> 0 < K -> 0 < T -> 0 < sigma ->
   (exists v, black_scholes_price S K T r sigma ot = Ok v) /\
   (exists g, calculate_greeks S K T r sigma ot = Ok g)).
Proof.
  split; [| split].
  - intros HT. split; [apply price_guard; left; exact HT |].
    apply greeks_guard. exact HT.
  - intros Hs. apply price_guard. right. exact Hs.
  - intros HS HK HT Hs. split; [apply price_total; assumption |].
    eexists. apply greeks_general; assumption.
Qed.

Lemma parameters_not_validated_witness :
  (black_scholes_price 0 (-5) 0 (-1/100) (-2/10) "call" = Ok 0 /\
   calculate_greeks 0 (-5) 0 (-1/100) (-2/10) "call"
   = Ok {[ "delta" := 0; "gamma" := 0; "theta" := 0; "vega" := 0;
           "rho" := 0 ]}) /\
  black_scholes_price 0 (-5) (1/4) (-1/100) (-2/10) "call" = Ok 0 /\
  ((exists v, black_scholes_price 100 105 (1/4) (-1/100) (2/10) "call" = Ok v) /\
   (exists g, calculate_greeks 100 105 (1/4) (-1/100) (2/10) "call" = Ok g)).
Proof.
  split; [| split].
  - apply (parameters_not_validated 0 (-5) 0 (-1/100) (-2/10) "call"). lra.
  - apply (parameters_not_validated 0 (-5) (1/4) (-1/100) (-2/10) "call"). lra.
  - apply (parameters_not_validated 100 105 (1/4) (-1/100) (2/10) "call"); lra.
Defined.

(** * Put-call parity

    The two prices differ by [S - K * exp (- r T)] because neither clamp
    is active: the Black-Scholes value of a call and of a put is not
    negative.  That is a fact about the normal distribution; it is
    proved here from the value of the Gaussian integral. *)

(** ** Derivatives *)

Lemma derivable_pt_lim_eq (f : R -> R) (x l l' : R) :
  derivable_pt_lim f x l -> l = l' -> derivable_pt_lim f x l'.
Proof. intros H <-. exact H. Qed.

Lemma derivable_pt_lim_ext (f g : R -> R) (x l : R) :
  (forall y, f y = g y) -> derivable_pt_lim f x l -> derivable_pt_lim g x l.
Proof.
  intros Hfg Hf eps Heps. destruct (Hf eps Heps) as [delta Hd].
  exists delta. intros k Hk0 Hk. rewrite <- !Hfg. apply Hd; assumption.
Qed.

(** The derivative of [y ↦ G (c * y + d)]. *)
Lemma derivable_pt_lim_affine (G : R -> R) (c d x g : R) :
  derivable_pt_lim G (c * x + d) g ->
  derivable_pt_lim (fun y => G (c * y + d)) x (g * c).
Proof.
  intros HG.
  apply (derivable_pt_lim_comp (fun y => c * y + d) G x c g); [| exact HG].
  replace c with (c * 1 + 0) at 1 by ring.
  apply (derivable_pt_lim_plus (fun y => c * y) (fun _ => d)).
  - apply (derivable_pt_lim_scal id c x 1). apply derivable_pt_lim_id.
  - apply derivable_pt_lim_const.
Qed.

(** The derivative of [y ↦ G (y - v)]. *)
Lemma derivable_pt_lim_shift (G : R -> R) (v x g : R) :
  derivable_pt_lim G (x - v) g ->
  derivable_pt_lim (fun y => G (y - v)) x g.
Proof.
  intros HG. eapply derivable_pt_lim_eq.
  - apply (derivable_pt_lim_comp (fun y => y - v) G x (1 - 0) g); [| exact HG].
    apply (derivable_pt_lim_minus id (fun _ => v)).
    + apply derivable_pt_lim_id.
    + apply derivable_pt_lim_const.
  - ring.
Qed.

Lemma zero_derivative_constant (D : R -> R) :
  (forall x, derivable_pt_lim D x 0) -> forall x y, D x = D y.
Proof.
  intros HD.
  assert (pr : derivable D).
  { intros x. exists 0. apply HD. }
  apply (null_derivative_1 D pr).
  intros x. apply derive_pt_eq_0. apply HD.
Qed.

Lemma increasing_of_derivative (f f' : R -> R) :
  (forall x, derivable_pt_lim f x (f' x)) -> (forall x, 0 <= f' x) ->
  forall x y, x <= y -> f x <= f y.
Proof.
  intros Hf Hpos.
  assert (pr : derivable f).
  { intros x. exists (f' x). apply Hf. }
  apply (nonneg_derivative_1 f pr).
  intros x. rewrite (derive_pt_eq_0 f x (f' x) (pr x) (Hf x)). apply Hpos.
Qed.

(** ** Integrals of continuous functions *)

Section IntegralFacts.
Variable f : R -> R.
Hypothesis f_cont : continuity f.

Lemma integral_any a b (pr : Riemann_integrable f a b) :
  RiemannInt pr = integral f f_cont a b.
Proof. apply RiemannInt_P5. Qed.

Lemma integral_chasles a b c :
  integral f f_cont a b + integral f f_cont b c = integral f f_cont a c.
Proof. apply RiemannInt_P26. Qed.

Lemma integral_same a : integral f f_cont a a = 0.
Proof. apply RiemannInt_P9. Qed.

(** The integral is a primitive of the function, at every point. *)
Lemma integral_derivable a x :
  derivable_pt_lim (fun y => integral f f_cont a y) x (f x).
Proof.
  set (lo := Rmin a x - 1). set (hi := Rmax a x + 1).
  assert (Hlo : lo < a /\ lo <= x - 1).
  { unfold lo. pose proof (Rmin_l a x). pose proof (Rmin_r a x). lra. }
  assert (Hhi : a < hi /\ x + 1 <= hi).
  { unfold hi. pose proof (Rmax_l a x). pose proof (Rmax_r a x). lra. }
  assert (h : lo <= hi) by lra.
  assert (C0 : forall y, lo <= y <= hi -> continuity_pt f y)
    by (intros; apply f_cont).
  assert (Hprim : forall y, lo <= y <= hi ->
            primitive h (FTC_P1 h C0) y
            = integral f f_cont lo a + integral f f_cont a y).
  { intros y [Hy1 Hy2]. unfold primitive.
    destruct (Rle_dec lo y) as [r1 | n1]; [| contradiction].
    destruct (Rle_dec y hi) as [r2 | n2]; [| contradiction].
    rewrite integral_any. symmetry. apply integral_chasles. }
  assert (Hx : lo < x < hi) by lra.
  pose proof (@RiemannInt_P27 f lo hi x h C0 Hx) as HD.
  intros eps Heps. destruct (HD eps Heps) as [delta Hdelta].
  assert (Hd' : 0 < Rmin delta 1).
  { apply Rmin_pos; [apply cond_pos | lra]. }
  exists (mkposreal _ Hd'). intros k Hk0 Hk. simpl in Hk.
  assert (Hk1 : Rabs k < delta) by (eapply Rlt_le_trans; [exact Hk | apply Rmin_l]).
  assert (Hk2 : Rabs k < 1) by (eapply Rlt_le_trans; [exact Hk | apply Rmin_r]).
  specialize (Hdelta k Hk0 Hk1).
  apply Rabs_def2 in Hk2.
  rewrite !Hprim in Hdelta by lra.
  replace (integral f f_cont a (x + k) - integral f f_cont a x)
    with (integral f f_cont lo a + integral f f_cont a (x + k)
          - (integral f f_cont lo a + integral f f_cont a x)) by ring.
  exact Hdelta.
Qed.

(** The fundamental theorem, for a primitive that is known everywhere. *)
Lemma integral_primitive (G : R -> R) a b :
  (forall x, derivable_pt_lim G x (f x)) ->
  integral f f_cont a b = G b - G a.
Proof.
  intros HG.
  assert (HD : forall x,
            derivable_pt_lim (fun y => integral f f_cont a y - G y) x 0).
  { intros x. eapply derivable_pt_lim_eq.
    - apply (derivable_pt_lim_minus (fun y => integral f f_cont a y) G).
      + apply integral_derivable.
      + apply HG.
    - ring. }
  pose proof (zero_derivative_constant _ HD b a) as H. simpl in H.
  rewrite integral_same in H. lra.
Qed.

End IntegralFacts.

Lemma continuity_lin (f g : R -> R) (l : R) :
  continuity f -> continuity g -> continuity (fun x => f x + l * g x).
Proof.
  intros Hf Hg.
  apply (continuity_plus f (mult_real_fct l g)); [exact Hf |].
  apply continuity_scal. exact Hg.
Qed.

Lemma integral_lin f g (cf : continuity f) (cg : continuity g) l
      (cfg : continuity (fun x => f x + l * g x)) a b :
  integral (fun x => f x + l * g x) cfg a b
  = integral f cf a b + l * integral g cg a b.
Proof. unfold integral. apply RiemannInt_P13. Qed.

(** ** The normal distribution *)

Lemma sqrt_2PI_pos : 0 < sqrt (2 * PI).
Proof. apply sqrt_lt_R0. pose proof PI_RGT_0. lra. Qed.

Lemma sqrt_2PI_sqr : sqrt (2 * PI) * sqrt (2 * PI) = 2 * PI.
Proof. apply sqrt_sqrt. pose proof PI_RGT_0. lra. Qed.

Lemma norm_pdf_cont : continuity norm_pdf.
Proof. intro x. unfold norm_pdf. reg. Qed.

Lemma norm_pdf_even x : norm_pdf (- x) = norm_pdf x.
Proof.
  unfold norm_pdf. replace (- (- x) ^ 2 / 2) with (- x ^ 2 / 2) by field.
  reflexivity.
Qed.

Lemma norm_pdf_shift x v :
  norm_pdf (x - v) = norm_pdf x * exp (x * v - v ^ 2 / 2).
Proof.
  unfold norm_pdf.
  replace (- (x - v) ^ 2 / 2) with (- x ^ 2 / 2 + (x * v - v ^ 2 / 2)) by field.
  rewrite exp_plus. field. apply Rgt_not_eq, sqrt_2PI_pos.
Qed.

Lemma norm_cdf_half_mass x : norm_cdf x = 1 / 2 + half_mass x.
Proof. reflexivity. Qed.

Lemma half_mass_integral x : half_mass x = integral norm_pdf norm_pdf_cont 0 x.
Proof. apply integral_any. Qed.

Lemma half_mass_deriv x : derivable_pt_lim half_mass x (norm_pdf x).
Proof.
  apply (derivable_pt_lim_ext (fun y => integral norm_pdf norm_pdf_cont 0 y)).
  - intros y. symmetry. apply half_mass_integral.
  - apply integral_derivable.
Qed.

Lemma half_mass_0 : half_mass 0 = 0.
Proof. rewrite half_mass_integral. apply integral_same. Qed.

Lemma half_mass_odd x : half_mass (- x) = - half_mass x.
Proof.
  assert (HD : forall y,
    derivable_pt_lim (fun y => half_mass (-1 * y + 0) + half_mass y) y 0).
  { intros y.
    eapply derivable_pt_lim_eq.
    - apply (derivable_pt_lim_plus (fun y => half_mass (-1 * y + 0)) half_mass).
      + apply derivable_pt_lim_affine. apply half_mass_deriv.
      + apply half_mass_deriv.
    - replace (-1 * y + 0) with (- y) by ring. rewrite norm_pdf_even. ring. }
  pose proof (zero_derivative_constant _ HD x 0) as H. simpl in H.
  replace (-1 * x + 0) with (- x) in H by ring.
  replace (-1 * 0 + 0) with 0 in H by ring.
  rewrite half_mass_0 in H. lra.
Qed.

(** The distribution function is symmetric. *)
Lemma norm_cdf_opp x : norm_cdf (- x) = 1 - norm_cdf x.
Proof. rewrite !norm_cdf_half_mass, half_mass_odd. lra. Qed.

(** The density is the derivative of the distribution function. *)
Lemma norm_cdf_deriv x : derivable_pt_lim norm_cdf x (norm_pdf x).
Proof.
  apply (derivable_pt_lim_ext (fun y => 1 / 2 + half_mass y)).
  - intros y. symmetry. apply norm_cdf_half_mass.
  - eapply derivable_pt_lim_eq.
    + apply (derivable_pt_lim_plus (fun _ => 1 / 2) half_mass).
      * apply derivable_pt_lim_const.
      * apply half_mass_deriv.
    + ring.
Qed.

Lemma half_mass_nonneg x : 0 <= x -> 0 <= half_mass x.
Proof.
  intros Hx. unfold half_mass.
  pose proof (@RiemannInt_const_bound norm_pdf 0 x 0 (norm_pdf 0 + 1)
                (norm_pdf_integrable 0 x) Hx) as H.
  destruct H as [H _].
  - intros y _. split; [apply Rlt_le, norm_pdf_pos |].
    unfold norm_pdf. pose proof sqrt_2PI_pos as Hs.
    assert (exp (- y ^ 2 / 2) <= exp (- 0 ^ 2 / 2)).
    { destruct (Req_dec y 0) as [-> | Hy]; [lra |].
      apply Rlt_le, exp_increasing. nra. }
    assert (exp (- y ^ 2 / 2) / sqrt (2 * PI) <= exp (- 0 ^ 2 / 2) / sqrt (2 * PI)).
    { apply Rmult_le_compat_r; [apply Rlt_le, Rinv_0_lt_compat, Hs | assumption]. }
    lra.
  - lra.
Qed.

(** ** The Gaussian integral

    [half_mass t ^ 2 + gauss_aux t / PI] does not depend on [t], where
    [gauss_aux t] is the integral over [[0, 1]] of
    [exp (- t^2 (1 + x^2) / 2) / (1 + x^2)]. *)

Lemma one_plus_sqr_pos x : 0 < 1 + x ^ 2.
Proof. pose proof (pow2_ge_0 x). lra. Qed.

Lemma gauss_kernel_cont t : continuity (gauss_kernel t).
Proof.
  intro x. unfold gauss_kernel. reg.
  apply Rgt_not_eq. pose proof (one_plus_sqr_pos x) as H. simpl in *. lra.
Qed.

Lemma gauss_kernel_dt_cont t : continuity (gauss_kernel_dt t).
Proof. intro x. unfold gauss_kernel_dt. reg. Qed.

Lemma gauss_aux_integral t :
  gauss_aux t = integral (gauss_kernel t) (gauss_kernel_cont t) 0 1.
Proof. apply integral_any. Qed.

Lemma gauss_aux_dt_integral t :
  gauss_aux_dt t = integral (gauss_kernel_dt t) (gauss_kernel_dt_cont t) 0 1.
Proof. apply integral_any. Qed.

Lemma gauss_aux_dt_value t :
  gauss_aux_dt t = - exp (- t ^ 2 / 2) * sqrt (2 * PI) * half_mass t.
Proof.
  rewrite gauss_aux_dt_integral.
  rewrite (integral_primitive _ _
             (fun x => - exp (- t ^ 2 / 2) * sqrt (2 * PI) * half_mass (t * x + 0))).
  - replace (t * 1 + 0) with t by ring. replace (t * 0 + 0) with 0 by ring.
    rewrite half_mass_0. ring.
  - intros x.
    eapply derivable_pt_lim_eq.
    + apply (derivable_pt_lim_scal (fun x => half_mass (t * x + 0))
               (- exp (- t ^ 2 / 2) * sqrt (2 * PI)) x).
      apply derivable_pt_lim_affine. apply half_mass_deriv.
    + unfold gauss_kernel_dt, norm_pdf.
      replace (- (t ^ 2 * (1 + x ^ 2)) / 2)
        with (- t ^ 2 / 2 + - (t * x + 0) ^ 2 / 2) by field.
      rewrite exp_plus. field. apply Rgt_not_eq, sqrt_2PI_pos.
Qed.

Lemma exp_quadratic y : y <= 1 / 2 -> exp y <= 1 + y + 2 * y ^ 2.
Proof.
  intros Hy.
  pose proof (exp_ineq1_le (- y)) as H1.
  pose proof (exp_pos y) as Hp.
  assert (H2 : exp y * exp (- y) = 1).
  { rewrite <- exp_plus. replace (y + - y) with 0 by ring. apply exp_0. }
  assert (H3 : exp y * (1 - y) <= 1) by nra.
  assert (H4 : 0 <= y ^ 2 * (1 - 2 * y)).
  { apply Rmult_le_pos; [apply pow2_ge_0 | lra]. }
  assert (H5 : 0 < 1 - y) by lra.
  apply (Rmult_le_reg_r (1 - y)); [exact H5 |].
  nra.
Qed.

(** The remainder of the first-order expansion of the kernel in [t]. *)
Lemma gauss_kernel_remainder t h x :
  0 <= x <= 1 -> Rabs h <= 1 / (2 * (2 * Rabs t + 1)) ->
  let M := 2 * (2 * Rabs t + 1) ^ 2 in
  - (M * h ^ 2)
  <= gauss_kernel (t + h) x - gauss_kernel t x - h * gauss_kernel_dt t x
  <= M * h ^ 2.
Proof.
  intros Hx Hh M.
  pose proof (Rabs_pos t) as Ht0.
  set (a := 2 * Rabs t + 1) in *.
  assert (Ha : 1 <= a) by (unfold a; lra).
  assert (Hh1 : Rabs h * a <= 1 / 2).
  { apply (Rmult_le_compat_r a) in Hh; [| lra].
    replace (1 / (2 * a) * a) with (1 / 2) in Hh by (field; lra). exact Hh. }
  assert (Hh2 : Rabs h <= 1) by nra.
  set (u := (1 + x ^ 2) / 2).
  assert (Hu : 1 / 2 <= u <= 1) by (unfold u; nra).
  set (e0 := exp (- (t ^ 2 * u))).
  assert (He0 : 0 < e0 <= 1).
  { split; [apply exp_pos |]. unfold e0. rewrite <- exp_0.
    destruct (Req_dec (t ^ 2 * u) 0) as [-> | Hne].
    - rewrite Ropp_0. lra.
    - apply Rlt_le, exp_increasing. pose proof (pow2_ge_0 t). nra. }
  set (y := - ((2 * t * h + h ^ 2) * u)).
  (* the size of y *)
  assert (Hth : Rabs (2 * t + h) <= a).
  { unfold a. eapply Rle_trans; [apply Rabs_triang |].
    rewrite Rabs_mult, (Rabs_right 2) by lra. lra. }
  assert (Hy2 : y ^ 2 <= h ^ 2 * a ^ 2).
  { assert (E : y ^ 2 = h ^ 2 * (2 * t + h) ^ 2 * u ^ 2) by (unfold y; ring).
    assert (E2 : (2 * t + h) ^ 2 <= a ^ 2).
    { rewrite <- (pow2_abs (2 * t + h)). pose proof (Rabs_pos (2 * t + h)). nra. }
    assert (E3 : u ^ 2 <= 1) by nra.
    pose proof (pow2_ge_0 h). pose proof (pow2_ge_0 (2 * t + h)).
    pose proof (pow2_ge_0 u).
    rewrite E.
    assert (h ^ 2 * (2 * t + h) ^ 2 * u ^ 2 <= h ^ 2 * (2 * t + h) ^ 2 * 1).
    { apply Rmult_le_compat_l; [nra | exact E3]. }
    assert (h ^ 2 * (2 * t + h) ^ 2 <= h ^ 2 * a ^ 2).
    { apply Rmult_le_compat_l; assumption. }
    lra. }
  assert (Hy : y <= 1 / 2).
  { assert (y ^ 2 <= (1 / 2) ^ 2).
    { eapply Rle_trans; [exact Hy2 |].
      rewrite <- (pow2_abs h), <- Rpow_mult_distr.
      apply pow_incr. split; [| exact Hh1].
      apply Rmult_le_pos; [apply Rabs_pos | lra]. }
    destruct (Rle_dec y (1 / 2)); [assumption | nra]. }
  pose proof (exp_quadratic y Hy) as Hq.
  pose proof (exp_ineq1_le y) as Hl.
  (* the kernels in terms of e0, u and y *)
  assert (G1 : gauss_kernel t x = e0 / (2 * u)).
  { unfold gauss_kernel, e0, u. f_equal; [f_equal |]; field. }
  assert (G2 : gauss_kernel (t + h) x = e0 * exp y / (2 * u)).
  { unfold gauss_kernel, e0, y, u. rewrite <- exp_plus.
    f_equal; [f_equal |]; field. }
  assert (G3 : gauss_kernel_dt t x = - t * e0).
  { unfold gauss_kernel_dt, e0, u. do 2 f_equal. field. }
  rewrite G1, G2, G3.
  set (rho := exp y - 1 - y).
  assert (Hrho : 0 <= rho <= 2 * y ^ 2) by (unfold rho; lra).
  assert (E : e0 * exp y / (2 * u) - e0 / (2 * u) - h * (- t * e0)
              = e0 * (rho / (2 * u) - h ^ 2 / 2)).
  { unfold rho, y. field. lra. }
  rewrite E.
  assert (Hr2 : 0 <= rho / (2 * u) <= rho).
  { split.
    - apply Rmult_le_pos; [lra | apply Rlt_le, Rinv_0_lt_compat; lra].
    - apply (Rmult_le_reg_r (2 * u)); [lra |].
      replace (rho / (2 * u) * (2 * u)) with rho by (field; lra). nra. }
  pose proof (pow2_ge_0 h) as Hh0.
  assert (HM : M * h ^ 2 = 2 * (h ^ 2 * a ^ 2)) by (unfold M; ring).
  assert (Ha2 : 1 <= a ^ 2) by nra.
  assert (Hha : h ^ 2 <= h ^ 2 * a ^ 2) by nra.
  rewrite HM.
  split.
  - assert (e0 * (rho / (2 * u) - h ^ 2 / 2) >= e0 * (- (h ^ 2 / 2))) by nra.
    assert (e0 * (- (h ^ 2 / 2)) >= - (h ^ 2 / 2)) by nra.
    lra.
  - assert (e0 * (rho / (2 * u) - h ^ 2 / 2) <= e0 * rho) by nra.
    assert (e0 * rho <= rho) by nra.
    lra.
Qed.

Lemma gauss_aux_deriv t : derivable_pt_lim gauss_aux t (gauss_aux_dt t).
Proof.
  intros eps Heps.
  pose proof (Rabs_pos t) as Ht0.
  set (a := 2 * Rabs t + 1).
  set (M := 2 * a ^ 2).
  assert (Ha : 1 <= a) by (unfold a; lra).
  assert (HM : 0 < M) by (unfold M; nra).
  assert (Hd : 0 < Rmin (1 / (2 * a)) (eps / M)).
  { apply Rmin_pos.
    - apply Rdiv_lt_0_compat; lra.
    - apply Rdiv_lt_0_compat; lra. }
  exists (mkposreal _ Hd). intros h Hh0 Hh. simpl in Hh.
  assert (Hh1 : Rabs h <= 1 / (2 * a)).
  { apply Rlt_le. eapply Rlt_le_trans; [exact Hh | apply Rmin_l]. }
  assert (Hh2 : Rabs h < eps / M).
  { eapply Rlt_le_trans; [exact Hh | apply Rmin_r]. }
  (* the remainder as one integral *)
  pose (lin := fun x => gauss_kernel t x + h * gauss_kernel_dt t x).
  assert (clin : continuity lin).
  { apply continuity_lin; [apply gauss_kernel_cont | apply gauss_kernel_dt_cont]. }
  pose (rem := fun x => gauss_kernel (t + h) x + -1 * lin x).
  assert (crem : continuity rem).
  { apply continuity_lin; [apply gauss_kernel_cont | exact clin]. }
  assert (Hrem : integral rem crem 0 1
                 = gauss_aux (t + h) - gauss_aux t - h * gauss_aux_dt t).
  { unfold rem.
    rewrite (integral_lin _ _ (gauss_kernel_cont (t + h)) clin).
    unfold lin.
    rewrite (integral_lin _ _ (gauss_kernel_cont t) (gauss_kernel_dt_cont t)).
    rewrite !gauss_aux_integral, gauss_aux_dt_integral. ring. }
  assert (Hb : - (M * h ^ 2) * (1 - 0) <= integral rem crem 0 1
               <= M * h ^ 2 * (1 - 0)).
  { unfold integral. apply RiemannInt_const_bound; [lra |].
    intros x Hx. unfold rem, lin.
    pose proof (gauss_kernel_remainder t h x ltac:(lra) Hh1) as Hr.
    simpl in Hr. fold a in Hr. unfold M. simpl. lra. }
  rewrite Hrem in Hb.
  replace ((gauss_aux (t + h) - gauss_aux t) / h - gauss_aux_dt t)
    with ((gauss_aux (t + h) - gauss_aux t - h * gauss_aux_dt t) / h)
    by (field; exact Hh0).
  set (R0 := gauss_aux (t + h) - gauss_aux t - h * gauss_aux_dt t) in *.
  assert (Hh3 : 0 < Rabs h) by (apply Rabs_pos_lt; exact Hh0).
  unfold Rdiv. rewrite Rabs_mult, Rabs_inv.
  apply (Rmult_lt_reg_r (Rabs h)); [exact Hh3 |].
  replace (Rabs R0 * / Rabs h * Rabs h) with (Rabs R0)
    by (field; apply Rgt_not_eq; exact Hh3).
  assert (HR0 : Rabs R0 <= M * h ^ 2).
  { apply Rabs_le. lra. }
  assert (Hh4 : h ^ 2 = Rabs h * Rabs h) by (rewrite <- pow2_abs; ring).
  assert (Hh5 : M * Rabs h < eps).
  { apply (Rmult_lt_compat_l M) in Hh2; [| exact HM].
    replace (M * (eps / M)) with eps in Hh2 by (field; lra). exact Hh2. }
  rewrite Hh4 in HR0.
  assert (M * (Rabs h * Rabs h) < eps * Rabs h) by nra.
  lra.
Qed.

Lemma gauss_aux_0 : gauss_aux 0 = PI / 4.
Proof.
  rewrite gauss_aux_integral, (integral_primitive _ _ atan).
  - rewrite atan_1, atan_0. ring.
  - intros x. eapply derivable_pt_lim_eq; [apply derivable_pt_lim_atan |].
    unfold gauss_kernel.
    replace (- (0 ^ 2 * (1 + x ^ 2)) / 2) with 0 by field.
    rewrite exp_0. pose proof (one_plus_sqr_pos x). simpl in *. field. lra.
Qed.

Lemma gauss_identity t : half_mass t ^ 2 + gauss_aux t / PI = 1 / 4.
Proof.
  pose proof PI_RGT_0 as HPI.
  assert (HD : forall s,
    derivable_pt_lim (fun s => half_mass s * half_mass s + / PI * gauss_aux s) s 0).
  { intros s. eapply derivable_pt_lim_eq.
    - apply (derivable_pt_lim_plus (fun s => half_mass s * half_mass s)
                                   (fun s => / PI * gauss_aux s)).
      + apply (derivable_pt_lim_mult half_mass half_mass); apply half_mass_deriv.
      + apply (derivable_pt_lim_scal gauss_aux (/ PI)). apply gauss_aux_deriv.
    - rewrite gauss_aux_dt_value. unfold norm_pdf.
      pose proof sqrt_2PI_pos as Hs. pose proof sqrt_2PI_sqr as Hs2.
      set (c := sqrt (2 * PI)) in *.
      replace PI with (c * c / 2) by lra.
      field. lra. }
  pose proof (zero_derivative_constant _ HD t 0) as H. simpl in H.
  rewrite half_mass_0, gauss_aux_0 in H.
  replace (half_mass t ^ 2) with (half_mass t * half_mass t) by ring.
  unfold Rdiv. rewrite (Rmult_comm (gauss_aux t)). rewrite H. field. lra.
Qed.

Lemma gauss_aux_bounds t : 0 <= gauss_aux t <= exp (- t ^ 2 / 2).
Proof.
  assert (H : 0 * (1 - 0) <= gauss_aux t <= exp (- t ^ 2 / 2) * (1 - 0)).
  { unfold gauss_aux. apply RiemannInt_const_bound; [lra |].
    intros x Hx. unfold gauss_kernel.
    pose proof (one_plus_sqr_pos x) as Hp.
    pose proof (exp_pos (- (t ^ 2 * (1 + x ^ 2)) / 2)) as He.
    assert (Hle : exp (- (t ^ 2 * (1 + x ^ 2)) / 2) <= exp (- t ^ 2 / 2)).
    { destruct (Req_dec (t ^ 2 * x ^ 2) 0) as [E | E].
      - right. f_equal. nra.
      - left. apply exp_increasing.
        pose proof (pow2_ge_0 t). pose proof (pow2_ge_0 x). nra. }
    split.
    - apply Rlt_le, Rdiv_lt_0_compat; assumption.
    - apply (Rmult_le_reg_r (1 + x ^ 2)); [exact Hp |].
      replace (exp (- (t ^ 2 * (1 + x ^ 2)) / 2) / (1 + x ^ 2) * (1 + x ^ 2))
        with (exp (- (t ^ 2 * (1 + x ^ 2)) / 2)) by (field; lra).
      pose proof (exp_pos (- t ^ 2 / 2)). pose proof (pow2_ge_0 x). nra. }
  lra.
Qed.

Lemma half_mass_le_half t : 0 <= t -> half_mass t <= 1 / 2.
Proof.
  intros Ht. pose proof (half_mass_nonneg t Ht) as H0.
  pose proof (gauss_identity t) as HI. pose proof (gauss_aux_bounds t) as [HB _].
  pose proof PI_RGT_0 as HPI.
  assert (0 <= gauss_aux t / PI).
  { apply Rmult_le_pos; [exact HB | apply Rlt_le, Rinv_0_lt_compat, HPI]. }
  destruct (Rle_dec (half_mass t) (1 / 2)); [assumption | nra].
Qed.

Lemma norm_cdf_nonneg x : 0 <= norm_cdf x.
Proof.
  rewrite norm_cdf_half_mass.
  destruct (Rle_dec 0 x) as [Hx | Hx].
  - pose proof (half_mass_nonneg x Hx). lra.
  - pose proof (half_mass_le_half (- x) ltac:(lra)) as H.
    rewrite half_mass_odd in H. lra.
Qed.

Lemma exp_neg_le_inv s : 0 <= s -> exp (- s) <= / (1 + s).
Proof.
  intros Hs. pose proof (exp_ineq1_le s) as H. pose proof (exp_pos (- s)) as Hp.
  assert (E : exp s * exp (- s) = 1).
  { rewrite <- exp_plus. replace (s + - s) with 0 by ring. apply exp_0. }
  apply (Rmult_le_reg_r (1 + s)); [lra |].
  replace (/ (1 + s) * (1 + s)) with 1 by (field; lra). nra.
Qed.

(** [norm_cdf] tends to [0] at minus infinity. *)
Lemma norm_cdf_vanishes eps :
  0 < eps -> exists x0, forall x, x <= x0 -> norm_cdf x < eps.
Proof.
  intros Heps. pose proof PI_RGT_0 as HPI.
  set (e := eps * PI / 2).
  assert (He : 0 < e) by (unfold e; nra).
  exists (- (1 + 2 / e)). intros x Hx.
  set (t := - x).
  assert (H2e : 0 < 2 / e) by (apply Rdiv_lt_0_compat; lra).
  assert (Ht : 1 + 2 / e <= t) by (unfold t; lra).
  replace x with (- t) by (unfold t; ring).
  rewrite norm_cdf_half_mass, half_mass_odd.
  pose proof (half_mass_nonneg t ltac:(lra)) as H0.
  pose proof (gauss_identity t) as HI.
  pose proof (gauss_aux_bounds t) as [_ HB].
  (* exp (- t^2 / 2) < e *)
  assert (Hexp : exp (- t ^ 2 / 2) < e).
  { replace (- t ^ 2 / 2) with (- (t ^ 2 / 2)) by field.
    eapply Rle_lt_trans; [apply exp_neg_le_inv; nra |].
    assert (Hs : / e < 1 + t ^ 2 / 2).
    { assert (2 / e = 2 * / e) by reflexivity. nra. }
    assert (0 < / e) by (apply Rinv_0_lt_compat; exact He).
    rewrite <- (Rinv_inv e).
    apply Rinv_lt_contravar; [nra | exact Hs]. }
  assert (HB2 : gauss_aux t / PI < eps / 2).
  { apply (Rmult_lt_reg_r PI); [exact HPI |].
    replace (gauss_aux t / PI * PI) with (gauss_aux t) by (field; lra).
    unfold e in Hexp. lra. }
  (* (1/2 - F) (1/2 + F) = aux / PI *)
  assert (HF : (1 / 2 - half_mass t) * (1 / 2 + half_mass t) = gauss_aux t / PI).
  { replace (gauss_aux t / PI) with (1 / 4 - half_mass t ^ 2) by lra. field. }
  pose proof (half_mass_le_half t ltac:(lra)) as H1.
  nra.
Qed.

(** ** The Black-Scholes value is not negative *)

Lemma tilt_deriv v x :
  derivable_pt_lim (tilt v) x (v * exp (x * v - v ^ 2 / 2) * norm_cdf x).
Proof.
  unfold tilt.
  eapply derivable_pt_lim_eq.
  - apply (derivable_pt_lim_minus
             (fun x => exp (x * v - v ^ 2 / 2) * norm_cdf x)
             (fun x => norm_cdf (x - v))).
    + apply (derivable_pt_lim_mult (fun x => exp (x * v - v ^ 2 / 2)) norm_cdf).
      * apply (derivable_pt_lim_comp (fun x => x * v - v ^ 2 / 2) exp).
        -- apply (derivable_pt_lim_minus (fun x => x * v) (fun _ => v ^ 2 / 2)).
           ++ apply (derivable_pt_lim_mult id (fun _ => v)).
              ** apply derivable_pt_lim_id.
              ** apply derivable_pt_lim_const.
           ++ apply derivable_pt_lim_const.
        -- apply derivable_pt_lim_exp.
      * apply norm_cdf_deriv.
    + apply derivable_pt_lim_shift. apply norm_cdf_deriv.
  - unfold id. rewrite norm_pdf_shift. ring.
Qed.

Lemma tilt_nonneg v x : 0 < v -> 0 <= tilt v x.
Proof.
  intros Hv.
  destruct (Rle_lt_dec 0 (tilt v x)) as [H | H]; [exact H | exfalso].
  assert (Hinc : forall a b, a <= b -> tilt v a <= tilt v b).
  { apply (increasing_of_derivative (tilt v)
             (fun x => v * exp (x * v - v ^ 2 / 2) * norm_cdf x)).
    - intros a. apply tilt_deriv.
    - intros a. pose proof (exp_pos (a * v - v ^ 2 / 2)).
      pose proof (norm_cdf_nonneg a).
      apply Rmult_le_pos; [apply Rmult_le_pos; lra | assumption]. }
  destruct (norm_cdf_vanishes (- tilt v x) ltac:(lra)) as [x0 Hx0].
  set (z := Rmin x (x0 + v)).
  assert (Hz1 : z <= x) by apply Rmin_l.
  assert (Hz2 : z - v <= x0) by (pose proof (Rmin_r x (x0 + v)); unfold z; lra).
  pose proof (Hinc z x Hz1) as H1.
  pose proof (Hx0 (z - v) Hz2) as H2.
  assert (H3 : - norm_cdf (z - v) <= tilt v z).
  { unfold tilt. pose proof (exp_pos (z * v - v ^ 2 / 2)).
    pose proof (norm_cdf_nonneg z). nra. }
  lra.
Qed.

(** The spot in units of the discounted strike. *)
Lemma spot_over_discounted_strike S K T r sigma :
  0 < S -> 0 < K -> 0 < T -> 0 < sigma ->
  S = K * exp (- (r * T))
      * exp (Spec.d1 S K T r sigma * (sigma * sqrt T) - (sigma * sqrt T) ^ 2 / 2).
Proof.
  intros HS HK HT Hs.
  pose proof (sqrt_lt_R0 T HT) as Hq.
  assert (Hq2 : sqrt T * sqrt T = T) by (apply sqrt_sqrt; lra).
  assert (E : Spec.d1 S K T r sigma * (sigma * sqrt T) - (sigma * sqrt T) ^ 2 / 2
              = ln (S / K) + r * T).
  { unfold Spec.d1. replace 0.5 with (1 / 2) by lra.
    replace ((sigma * sqrt T) ^ 2) with (sigma ^ 2 * (sqrt T * sqrt T)) by ring.
    rewrite Hq2. field. nra. }
  rewrite E, exp_plus, exp_ln by (apply Rdiv_lt_0_compat; assumption).
  rewrite Rmult_assoc, (Rmult_comm (S / K)), <- !Rmult_assoc.
  rewrite (Rmult_assoc K), <- exp_plus.
  replace (- (r * T) + r * T) with 0 by ring. rewrite exp_0. field. lra.
Qed.

Lemma formula_nonneg S K T r sigma side :
  0 < S -> 0 < K -> 0 < T -> 0 < sigma ->
  0 <= Spec.formula S K T r sigma side.
Proof.
  intros HS HK HT Hs.
  pose proof (sqrt_lt_R0 T HT) as Hq.
  set (v := sigma * sqrt T).
  assert (Hv : 0 < v) by (unfold v; nra).
  pose proof (spot_over_discounted_strike S K T r sigma HS HK HT Hs) as HSK.
  fold v in HSK.
  set (x := Spec.d1 S K T r sigma) in *.
  set (D := K * exp (- (r * T))) in *.
  assert (HD : 0 < D) by (unfold D; pose proof (exp_pos (- (r * T))); nra).
  assert (HS' : 0 < D * exp (x * v - v ^ 2 / 2)) by (rewrite <- HSK; exact HS).
  destruct side; unfold Spec.formula, Spec.d2; fold x; fold v; fold D;
    clearbody x v D; rewrite HSK; set (E := exp (x * v - v ^ 2 / 2)) in *.
  - (* call *)
    replace (D * E * norm_cdf x - D * norm_cdf (x - v)) with (D * tilt v x)
      by (unfold tilt; fold E; ring).
    apply Rmult_le_pos; [lra | apply tilt_nonneg; exact Hv].
  - (* put *)
    assert (HE : E * exp ((v - x) * v - v ^ 2 / 2) = 1).
    { unfold E. rewrite <- exp_plus.
      replace (x * v - v ^ 2 / 2 + ((v - x) * v - v ^ 2 / 2)) with 0 by field.
      apply exp_0. }
    replace (D * norm_cdf (- (x - v)) - D * E * norm_cdf (- x))
      with (D * E * tilt v (v - x)).
    + apply Rmult_le_pos; [lra | apply tilt_nonneg; exact Hv].
    + unfold tilt. replace (v - x - v) with (- x) by ring.
      replace (- (x - v)) with (v - x) by ring.
      transitivity (D * (E * exp ((v - x) * v - v ^ 2 / 2)) * norm_cdf (v - x)
                    - D * E * norm_cdf (- x)); [ring |].
      rewrite HE. ring.
Qed.

(** C7. Put-call parity. For positive spot, strike, time and volatility
    the price of the call minus the price of the put, both as
    [black_scholes_price] returns them, is [S - K * exp (- r T)]: in
    exact arithmetic the two differ by nothing, so they agree within
    every tolerance. *)
Theorem put_call_parity S K T r sigma :
  0 < S -> 0 < K -> 0 < T -> 0 < sigma ->
  exists c p : R,
    black_scholes_price S K T r sigma "call" = Ok c /\
    black_scholes_price S K T r sigma "put" = Ok p /\
    c - p = S - K * np_exp (- r * T) /\
    forall tol, 0 <= tol ->
      Rabs (c - p - (S - K * np_exp (- r * T)))
      <= tol * Rabs (S - K * np_exp (- r * T)).
Proof.
  intros HS HK HT Hs.
  pose proof (formula_nonneg S K T r sigma Spec.Call HS HK HT Hs) as Hc.
  pose proof (formula_nonneg S K T r sigma Spec.Put HS HK HT Hs) as Hp.
  unfold Spec.formula in Hc, Hp.
  rewrite !(price_general S K T r sigma) by assumption.
  cbn [String.eqb Ascii.eqb Bool.eqb].
  rewrite !py_max_Rmax, np_exp_neg_mult.
  rewrite !Rmax_right by assumption.
  do 2 eexists. split; [reflexivity |]. split; [reflexivity |].
  match goal with |- ?a - ?b = ?c /\ _ => assert (E : a - b = c) end.
  { rewrite !norm_cdf_opp. ring. }
  split; [exact E |].
  intros tol Htol. rewrite E.
  unfold Rminus at 1. rewrite Rplus_opp_r, Rabs_R0.
  apply Rmult_le_pos; [exact Htol | apply Rabs_pos].
Qed.

Lemma put_call_parity_witness :
  exists c p : R,
    black_scholes_price 100 105 (1/4) (5/100) (2/10) "call" = Ok c /\
    black_scholes_price 100 105 (1/4) (5/100) (2/10) "put" = Ok p /\
    c - p = 100 - 105 * np_exp (- (5/100) * (1/4)) /\
    forall tol, 0 <= tol ->
      Rabs (c - p - (100 - 105 * np_exp (- (5/100) * (1/4))))
      <= tol * Rabs (100 - 105 * np_exp (- (5/100) * (1/4))).
Proof.
  apply (put_call_parity 100 105 (1/4) (5/100) (2/10)); lra.
Defined.

(** * The engine, beyond the specification's claims *)

(** ** The distribution function lies in [[0, 1]] *)

Lemma norm_cdf_le_1 x : norm_cdf x <= 1.
Proof.
  pose proof (norm_cdf_nonneg (- x)) as H. rewrite norm_cdf_opp in H. lra.
Qed.

(** ** The density at [d1] and at [d2] *)

(** [S * pdf(d1) = K * exp(-rT) * pdf(d2)]: the identity behind every
    sensitivity. *)
Lemma spot_density_strike_density S K T r sigma :
  0 < S -> 0 < K -> 0 < T -> 0 < sigma ->
  S * norm_pdf (Spec.d1 S K T r sigma)
  = K * exp (- (r * T)) * norm_pdf (Spec.d2 S K T r sigma).
Proof.
  intros HS HK HT Hs. unfold Spec.d2. rewrite norm_pdf_shift.
  rewrite (spot_over_discounted_strike S K T r sigma HS HK HT Hs) at 1.
  ring.
Qed.

(** ** Derivatives of the Black-Scholes value *)

Lemma derivable_pt_lim_local (f g : R -> R) (x l d : R) :
  0 < d -> (forall y, Rabs (y - x) < d -> f y = g y) ->
  derivable_pt_lim g x l -> derivable_pt_lim f x l.
Proof.
  intros Hd Hfg Hg eps Heps. destruct (Hg eps Heps) as [delta Hdelta].
  assert (Hm : 0 < Rmin delta d) by (apply Rmin_pos; [apply cond_pos | exact Hd]).
  exists (mkposreal _ Hm). intros h Hh0 Hh. simpl in Hh.
  rewrite !Hfg.
  - apply Hdelta; [exact Hh0 |]. eapply Rlt_le_trans; [exact Hh | apply Rmin_l].
  - replace (x - x) with 0 by ring. rewrite Rabs_R0. exact Hd.
  - replace (x + h - x) with h by ring.
    eapply Rlt_le_trans; [exact Hh | apply Rmin_r].
Qed.

Lemma derivable_pt_lim_of_derivable (f : R -> R) (x : R) :
  derivable_pt f x -> exists l, derivable_pt_lim f x l.
Proof. intros [l Hl]. exists l. exact Hl. Qed.

(** The value of a call when the spot [Sf], the discounted strike [Df],
    [d1 = xf] and [d1 - d2 = wf] all move with one parameter.  Where the
    density identity holds, the derivative of [xf] drops out. *)
Lemma call_value_deriv (Sf Df xf wf : R -> R) (p S' D' x' w' : R) :
  derivable_pt_lim Sf p S' -> derivable_pt_lim Df p D' ->
  derivable_pt_lim xf p x' -> derivable_pt_lim wf p w' ->
  Sf p * norm_pdf (xf p) = Df p * norm_pdf (xf p - wf p) ->
  derivable_pt_lim
    (fun q => Sf q * norm_cdf (xf q) - Df q * norm_cdf (xf q - wf q)) p
    (S' * norm_cdf (xf p) - D' * norm_cdf (xf p - wf p)
     + Sf p * norm_pdf (xf p) * w').
Proof.
  intros HS HD Hx Hw Hid.
  eapply derivable_pt_lim_eq.
  - apply (derivable_pt_lim_minus
             (fun q => Sf q * norm_cdf (xf q))
             (fun q => Df q * norm_cdf (xf q - wf q))).
    + apply (derivable_pt_lim_mult Sf (fun q => norm_cdf (xf q))); [exact HS |].
      apply (derivable_pt_lim_comp xf norm_cdf); [exact Hx |].
      apply norm_cdf_deriv.
    + apply (derivable_pt_lim_mult Df (fun q => norm_cdf (xf q - wf q)));
        [exact HD |].
      apply (derivable_pt_lim_comp (fun q => xf q - wf q) norm_cdf).
      * apply (derivable_pt_lim_minus xf wf); [exact Hx | exact Hw].
      * apply norm_cdf_deriv.
  - cbv beta.
    transitivity
      (S' * norm_cdf (xf p) - D' * norm_cdf (xf p - wf p)
       + (Sf p * norm_pdf (xf p)) * x'
       - (Df p * norm_pdf (xf p - wf p)) * (x' - w')); [ring |].
    rewrite <- Hid. ring.
Qed.

(** The same for a put, written as the source writes it. *)
Lemma put_value_deriv (Sf Df xf wf : R -> R) (p S' D' x' w' : R) :
  derivable_pt_lim Sf p S' -> derivable_pt_lim Df p D' ->
  derivable_pt_lim xf p x' -> derivable_pt_lim wf p w' ->
  Sf p * norm_pdf (xf p) = Df p * norm_pdf (xf p - wf p) ->
  derivable_pt_lim
    (fun q => Df q * norm_cdf (- (xf q - wf q)) - Sf q * norm_cdf (- xf q)) p
    (S' * (norm_cdf (xf p) - 1) + D' * norm_cdf (- (xf p - wf p))
     + Sf p * norm_pdf (xf p) * w').
Proof.
  intros HS HD Hx Hw Hid.
  apply (derivable_pt_lim_ext
           (fun q => (Sf q * norm_cdf (xf q) - Df q * norm_cdf (xf q - wf q))
                     - (Sf q - Df q))).
  { intros q. rewrite !norm_cdf_opp. ring. }
  eapply derivable_pt_lim_eq.
  - apply (derivable_pt_lim_minus
             (fun q => Sf q * norm_cdf (xf q) - Df q * norm_cdf (xf q - wf q))
             (fun q => Sf q - Df q)).
    + exact (call_value_deriv Sf Df xf wf p S' D' x' w' HS HD Hx Hw Hid).
    + apply (derivable_pt_lim_minus Sf Df); [exact HS | exact HD].
  - rewrite norm_cdf_opp. ring.
Qed.

(** ** The results on valid parameters *)

(** On valid parameters the clamp changes nothing. *)
Lemma price_value_valid S K T r sigma ot :
  0 < S -> 0 < K -> 0 < T -> 0 < sigma ->
  black_scholes_price S K T r sigma ot
  = Ok (Spec.formula S K T r sigma (side_of ot)) /\
  price_value S K T r sigma ot = Spec.formula S K T r sigma (side_of ot).
Proof.
  intros HS HK HT Hs.
  assert (E : black_scholes_price S K T r sigma ot
              = Ok (Spec.formula S K T r sigma (side_of ot))).
  { rewrite price_general by assumption.
    rewrite py_max_Rmax, np_exp_neg_mult. unfold side_of.
    destruct (String.eqb ot "call");
      (rewrite Rmax_right; [reflexivity |]).
    - apply (formula_nonneg S K T r sigma Spec.Call); assumption.
    - apply (formula_nonneg S K T r sigma Spec.Put); assumption. }
  split; [exact E |]. unfold price_value. rewrite E. reflexivity.
Qed.

Lemma greek_value_valid S K T r sigma ot :
  0 < S -> 0 < K -> 0 < T -> 0 < sigma ->
  let G := Spec.greeks S K T r sigma (side_of ot) in
  greek_value "delta" S K T r sigma ot = Spec.delta G /\
  greek_value "gamma" S K T r sigma ot = Spec.gamma G /\
  greek_value "theta" S K T r sigma ot = Spec.theta G /\
  greek_value "vega" S K T r sigma ot = Spec.vega G /\
  greek_value "rho" S K T r sigma ot = Spec.rho G.
Proof.
  intros HS HK HT Hs G. unfold greek_value, G, side_of.
  rewrite (greeks_general S K T r sigma ot) by assumption.
  rewrite np_exp_neg_mult.
  destruct (String.eqb ot "call"); repeat split; try reflexivity.
  transitivity (- K * T * exp (- (r * T)) * norm_cdf (- Spec.d2 S K T r sigma)
                / 100); [reflexivity |].
  unfold Spec.greeks, Spec.annual_rho; cbn [Spec.rho]. field.
Qed.

(** ** The formula along each parameter *)

Lemma side_value_deriv (side : Spec.option_side)
      (Sf Df xf wf : R -> R) (p S' D' x' w' : R) :
  derivable_pt_lim Sf p S' -> derivable_pt_lim Df p D' ->
  derivable_pt_lim xf p x' -> derivable_pt_lim wf p w' ->
  Sf p * norm_pdf (xf p) = Df p * norm_pdf (xf p - wf p) ->
  derivable_pt_lim
    (fun q =>
       match side with
       | Spec.Call => Sf q * norm_cdf (xf q) - Df q * norm_cdf (xf q - wf q)
       | Spec.Put => Df q * norm_cdf (- (xf q - wf q)) - Sf q * norm_cdf (- xf q)
       end) p
    (match side with
     | Spec.Call => S' * norm_cdf (xf p) - D' * norm_cdf (xf p - wf p)
     | Spec.Put => S' * (norm_cdf (xf p) - 1) + D' * norm_cdf (- (xf p - wf p))
     end + Sf p * norm_pdf (xf p) * w').
Proof.
  intros HS HD Hx Hw Hid. destruct side.
  - exact (call_value_deriv Sf Df xf wf p S' D' x' w' HS HD Hx Hw Hid).
  - exact (put_value_deriv Sf Df xf wf p S' D' x' w' HS HD Hx Hw Hid).
Qed.

Lemma d1_deriv_spot S K T r sigma :
  0 < S -> 0 < K -> 0 < T -> 0 < sigma ->
  derivable_pt_lim (fun s => Spec.d1 s K T r sigma) S (/ (S * sigma * sqrt T)).
Proof.
  intros HS HK HT Hs. pose proof (sqrt_lt_R0 T HT) as Hq.
  unfold Spec.d1.
  eapply derivable_pt_lim_eq.
  - apply (derivable_pt_lim_mult
             (fun s => ln (s / K) + (r + 0.5 * sigma ^ 2) * T)
             (fun _ => / (sigma * sqrt T))).
    + apply (derivable_pt_lim_plus (fun s => ln (s / K))
                                   (fun _ => (r + 0.5 * sigma ^ 2) * T)).
      * apply (derivable_pt_lim_comp (fun s => s / K) ln).
        -- apply (derivable_pt_lim_mult id (fun _ => / K)).
           ++ apply derivable_pt_lim_id.
           ++ apply derivable_pt_lim_const.
        -- apply derivable_pt_lim_ln. apply Rdiv_lt_0_compat; assumption.
      * apply derivable_pt_lim_const.
    + apply derivable_pt_lim_const.
  - unfold id. field. repeat split; lra.
Qed.

Lemma exp_neg_mult_deriv_l (a p : R) :
  derivable_pt_lim (fun q => exp (- (q * a))) p (- a * exp (- (p * a))).
Proof.
  eapply derivable_pt_lim_eq.
  - apply (derivable_pt_lim_comp (fun q => - (q * a)) exp).
    + apply (derivable_pt_lim_opp (fun q => q * a)).
      apply (derivable_pt_lim_mult id (fun _ => a)).
      * apply derivable_pt_lim_id.
      * apply derivable_pt_lim_const.
    + apply derivable_pt_lim_exp.
  - unfold id. ring.
Qed.

Lemma exp_neg_mult_deriv_r (a p : R) :
  derivable_pt_lim (fun q => exp (- (a * q))) p (- a * exp (- (a * p))).
Proof.
  apply (derivable_pt_lim_ext (fun q => exp (- (q * a)))).
  - intros q. f_equal. ring.
  - eapply derivable_pt_lim_eq; [apply exp_neg_mult_deriv_l |].
    replace (p * a) with (a * p) by ring. reflexivity.
Qed.

Section AlongOneParameter.
Variables S K T r sigma : R.
Hypothesis HS : 0 < S.
Hypothesis HK : 0 < K.
Hypothesis HT : 0 < T.
Hypothesis Hs : 0 < sigma.
Variable side : Spec.option_side.

Let G := Spec.greeks S K T r sigma side.

Lemma formula_deriv_spot :
  derivable_pt_lim (fun s => Spec.formula s K T r sigma side) S (Spec.delta G).
Proof.
  pose proof (spot_density_strike_density S K T r sigma HS HK HT Hs) as Hid.
  eapply derivable_pt_lim_eq.
  - apply (side_value_deriv side (fun s => s) (fun _ => K * exp (- (r * T)))
             (fun s => Spec.d1 s K T r sigma) (fun _ => sigma * sqrt T)
             S 1 0 (/ (S * sigma * sqrt T)) 0).
    + apply derivable_pt_lim_id.
    + apply derivable_pt_lim_const.
    + apply d1_deriv_spot; assumption.
    + apply derivable_pt_lim_const.
    + exact Hid.
  - unfold G. destruct side; cbn [Spec.delta Spec.greeks]; ring.
Qed.

Lemma formula_deriv_vol :
  derivable_pt_lim (fun sg => Spec.formula S K T r sg side) sigma
                   (100 * Spec.vega G).
Proof.
  pose proof (spot_density_strike_density S K T r sigma HS HK HT Hs) as Hid.
  pose proof (sqrt_lt_R0 T HT) as Hq.
  destruct (derivable_pt_lim_of_derivable
              (fun sg => Spec.d1 S K T r sg) sigma) as [x' Hx'].
  { unfold Spec.d1. reg; try (apply Rgt_not_eq; nra). }
  eapply derivable_pt_lim_eq.
  - apply (side_value_deriv side (fun _ => S) (fun _ => K * exp (- (r * T)))
             (fun sg => Spec.d1 S K T r sg) (fun sg => sg * sqrt T)
             sigma 0 0 x' (sqrt T)).
    + apply derivable_pt_lim_const.
    + apply derivable_pt_lim_const.
    + exact Hx'.
    + eapply derivable_pt_lim_eq.
      * apply (derivable_pt_lim_mult id (fun _ => sqrt T)).
        -- apply derivable_pt_lim_id.
        -- apply derivable_pt_lim_const.
      * unfold id. ring.
    + exact Hid.
  - unfold G, Spec.annual_vega.
    destruct side; cbn [Spec.vega Spec.greeks]; unfold Spec.annual_vega; field.
Qed.

Lemma formula_deriv_rate :
  derivable_pt_lim (fun rr => Spec.formula S K T rr sigma side) r
                   (100 * Spec.rho G).
Proof.
  pose proof (spot_density_strike_density S K T r sigma HS HK HT Hs) as Hid.
  pose proof (sqrt_lt_R0 T HT) as Hq.
  destruct (derivable_pt_lim_of_derivable
              (fun rr => Spec.d1 S K T rr sigma) r) as [x' Hx'].
  { unfold Spec.d1. reg; try (apply Rgt_not_eq; nra). }
  eapply derivable_pt_lim_eq.
  - apply (side_value_deriv side (fun _ => S) (fun rr => K * exp (- (rr * T)))
             (fun rr => Spec.d1 S K T rr sigma) (fun _ => sigma * sqrt T)
             r 0 (K * (- T * exp (- (r * T)))) x' 0).
    + apply derivable_pt_lim_const.
    + apply (derivable_pt_lim_scal (fun rr => exp (- (rr * T))) K).
      apply exp_neg_mult_deriv_l.
    + exact Hx'.
    + apply derivable_pt_lim_const.
    + exact Hid.
  - unfold G.
    destruct side; cbn [Spec.rho Spec.greeks]; unfold Spec.annual_rho, Spec.d2;
      field.
Qed.

Lemma formula_deriv_time :
  derivable_pt_lim (fun t => Spec.formula S K t r sigma side) T
                   (- (365 * Spec.theta G)).
Proof.
  pose proof (spot_density_strike_density S K T r sigma HS HK HT Hs) as Hid.
  pose proof (sqrt_lt_R0 T HT) as Hq.
  destruct (derivable_pt_lim_of_derivable
              (fun t => Spec.d1 S K t r sigma) T) as [x' Hx'].
  { unfold Spec.d1. reg; try (apply Rgt_not_eq; nra). }
  eapply derivable_pt_lim_eq.
  - apply (side_value_deriv side (fun _ => S) (fun t => K * exp (- (r * t)))
             (fun t => Spec.d1 S K t r sigma) (fun t => sigma * sqrt t)
             T 0 (K * (- r * exp (- (r * T)))) x' (sigma * / (2 * sqrt T))).
    + apply derivable_pt_lim_const.
    + apply (derivable_pt_lim_scal (fun t => exp (- (r * t))) K).
      apply exp_neg_mult_deriv_r.
    + exact Hx'.
    + apply (derivable_pt_lim_scal sqrt sigma).
      apply derivable_pt_lim_sqrt. exact HT.
    + exact Hid.
  - unfold G.
    destruct side; cbn [Spec.theta Spec.greeks];
      unfold Spec.annual_theta, Spec.d2; field; lra.
Qed.

Lemma delta_deriv_spot :
  derivable_pt_lim (fun s => Spec.delta (Spec.greeks s K T r sigma side)) S
                   (Spec.gamma G).
Proof.
  pose proof (d1_deriv_spot S K T r sigma HS HK HT Hs) as Hd.
  pose proof (sqrt_lt_R0 T HT) as Hq.
  assert (H1 : derivable_pt_lim (fun s => norm_cdf (Spec.d1 s K T r sigma)) S
                 (Spec.gamma G)).
  { eapply derivable_pt_lim_eq.
    - apply (derivable_pt_lim_comp (fun s => Spec.d1 s K T r sigma) norm_cdf);
        [exact Hd | apply norm_cdf_deriv].
    - unfold G. cbn [Spec.gamma Spec.greeks]. field. repeat split; lra. }
  destruct side; cbn [Spec.delta Spec.greeks].
  - exact H1.
  - eapply derivable_pt_lim_eq.
    + apply (derivable_pt_lim_minus (fun s => norm_cdf (Spec.d1 s K T r sigma))
                                    (fun _ => 1)).
      * exact H1.
      * apply derivable_pt_lim_const.
    + ring.
Qed.

End AlongOneParameter.

(** ** The sensitivities are the slopes of the price *)

(** On valid parameters the dictionary holds, under each of its five
    keys, the number [greek_value] reads. *)
Lemma greek_value_returned S K T r sigma ot :
  0 < S -> 0 < K -> 0 < T -> 0 < sigma ->
  exists g : gmap string R,
    calculate_greeks S K T r sigma ot = Ok g /\
    forall name, name ∈ greek_names ->
                 g !! name = Some (greek_value name S K T r sigma ot).
Proof.
  intros HS HK HT Hs. eexists. split; [apply greeks_general; assumption |].
  intros name Hn. unfold greek_value.
  rewrite (greeks_general S K T r sigma ot) by assumption.
  unfold greek_names in Hn.
  repeat (apply elem_of_union in Hn as [Hn | Hn]);
    apply elem_of_singleton in Hn; subst name; reflexivity.
Qed.

Lemma near_positive (p y : R) : 0 < p -> Rabs (y - p) < p -> 0 < y.
Proof. intros Hp Hy. apply Rabs_def2 in Hy. lra. Qed.

(** [delta] is the slope of the price along the spot. *)
Lemma delta_is_price_slope_core S K T r sigma ot :
  0 < S -> 0 < K -> 0 < T -> 0 < sigma ->
  derivable_pt_lim (fun s => price_value s K T r sigma ot) S
                   (greek_value "delta" S K T r sigma ot).
Proof.
  intros HS HK HT Hs.
  destruct (greek_value_valid S K T r sigma ot HS HK HT Hs) as (-> & _).
  apply (derivable_pt_lim_local _
           (fun s => Spec.formula s K T r sigma (side_of ot)) S _ S HS).
  - intros y Hy. apply price_value_valid; try assumption.
    exact (near_positive S y HS Hy).
  - apply formula_deriv_spot; assumption.
Qed.

(** [gamma] is the slope of [delta] along the spot. *)
Lemma gamma_is_delta_slope_core S K T r sigma ot :
  0 < S -> 0 < K -> 0 < T -> 0 < sigma ->
  derivable_pt_lim (fun s => greek_value "delta" s K T r sigma ot) S
                   (greek_value "gamma" S K T r sigma ot).
Proof.
  intros HS HK HT Hs.
  destruct (greek_value_valid S K T r sigma ot HS HK HT Hs) as (_ & -> & _).
  apply (derivable_pt_lim_local _
           (fun s => Spec.delta (Spec.greeks s K T r sigma (side_of ot)))
           S _ S HS).
  - intros y Hy. apply greek_value_valid; try assumption.
    exact (near_positive S y HS Hy).
  - apply delta_deriv_spot; assumption.
Qed.

(** [vega], given per percentage point, is a hundredth of the slope
    of the price along the volatility. *)
Lemma vega_is_price_slope_core S K T r sigma ot :
  0 < S -> 0 < K -> 0 < T -> 0 < sigma ->
  derivable_pt_lim (fun sg => price_value S K T r sg ot) sigma
                   (100 * greek_value "vega" S K T r sigma ot).
Proof.
  intros HS HK HT Hs.
  destruct (greek_value_valid S K T r sigma ot HS HK HT Hs)
    as (_ & _ & _ & -> & _).
  apply (derivable_pt_lim_local _
           (fun sg => Spec.formula S K T r sg (side_of ot)) sigma _ sigma Hs).
  - intros y Hy. apply price_value_valid; try assumption.
    exact (near_positive sigma y Hs Hy).
  - apply formula_deriv_vol; assumption.
Qed.

(** [theta], given per day, is minus the slope of the price along the
    time to expiry, over 365. *)
Lemma theta_is_price_decay_core S K T r sigma ot :
  0 < S -> 0 < K -> 0 < T -> 0 < sigma ->
  derivable_pt_lim (fun t => price_value S K t r sigma ot) T
                   (- (365 * greek_value "theta" S K T r sigma ot)).
Proof.
  intros HS HK HT Hs.
  destruct (greek_value_valid S K T r sigma ot HS HK HT Hs)
    as (_ & _ & -> & _).
  apply (derivable_pt_lim_local _
           (fun t => Spec.formula S K t r sigma (side_of ot)) T _ T HT).
  - intros y Hy. apply price_value_valid; try assumption.
    exact (near_positive T y HT Hy).
  - apply formula_deriv_time; assumption.
Qed.

(** [rho], given per percentage point, is a hundredth of the slope of
    the price along the rate. *)
Lemma rho_is_price_slope_core S K T r sigma ot :
  0 < S -> 0 < K -> 0 < T -> 0 < sigma ->
  derivable_pt_lim (fun rr => price_value S K T rr sigma ot) r
                   (100 * greek_value "rho" S K T r sigma ot).
Proof.
  intros HS HK HT Hs.
  destruct (greek_value_valid S K T r sigma ot HS HK HT Hs)
    as (_ & _ & _ & _ & ->).
  apply (derivable_pt_lim_local _
           (fun rr => Spec.formula S K T rr sigma (side_of ot)) r _ 1 Rlt_0_1).
  - intros y _. apply price_value_valid; assumption.
  - apply formula_deriv_rate; assumption.
Qed.

(** ** Bounds and signs *)

Lemma discounted_strike_pos K r T : 0 < K -> 0 < K * exp (- (r * T)).
Proof. intros HK. pose proof (exp_pos (- (r * T))). nra. Qed.

(** X6. On valid parameters the clamp [max(0, price)] never changes the
    value: the price returned is the Black-Scholes value itself. *)
Theorem clamp_is_inactive S K T r sigma ot :
  0 < S -> 0 < K -> 0 < T -> 0 < sigma ->
  black_scholes_price S K T r sigma ot
  = Ok (Spec.formula S K T r sigma (side_of ot)).
Proof. intros HS HK HT Hs. apply price_value_valid; assumption. Qed.

Lemma clamp_is_inactive_witness :
  black_scholes_price 100 105 (1/4) (5/100) (2/10) "put"
  = Ok (Spec.formula 100 105 (1/4) (5/100) (2/10) Spec.Put).
Proof. apply (clamp_is_inactive 100 105 (1/4) (5/100) (2/10) "put"); lra. Defined.

(** A call is worth at most the spot and at least the spot minus the
    discounted strike; a put is worth at most the discounted strike and
    at least the discounted strike minus the spot. *)
Lemma price_bounds_core S K T r sigma ot :
  0 < S -> 0 < K -> 0 < T -> 0 < sigma ->
  let D := K * np_exp (- r * T) in
  let v := price_value S K T r sigma ot in
  match side_of ot with
  | Spec.Call => Rmax 0 (S - D) <= v <= S
  | Spec.Put => Rmax 0 (D - S) <= v <= D
  end.
Proof.
  intros HS HK HT Hs D v. unfold v, D.
  destruct (price_value_valid S K T r sigma ot HS HK HT Hs) as [_ ->].
  rewrite np_exp_neg_mult.
  pose proof (formula_nonneg S K T r sigma Spec.Call HS HK HT Hs) as Hc.
  pose proof (formula_nonneg S K T r sigma Spec.Put HS HK HT Hs) as Hp.
  pose proof (discounted_strike_pos K r T HK) as HD.
  assert (Hpar : Spec.formula S K T r sigma Spec.Call
                 - Spec.formula S K T r sigma Spec.Put
                 = S - K * exp (- (r * T))).
  { unfold Spec.formula. rewrite !norm_cdf_opp. ring. }
  assert (Hcu : Spec.formula S K T r sigma Spec.Call <= S).
  { unfold Spec.formula.
    pose proof (norm_cdf_le_1 (Spec.d1 S K T r sigma)).
    pose proof (norm_cdf_nonneg (Spec.d2 S K T r sigma)). nra. }
  destruct (side_of ot); (split; [apply Rmax_lub |]); lra.
Qed.

(** The delta of a call lies in [[0, 1]], the delta of a put in
    [[-1, 0]]. *)
Lemma delta_bounds_core S K T r sigma ot :
  0 < S -> 0 < K -> 0 < T -> 0 < sigma ->
  match side_of ot with
  | Spec.Call => 0 <= greek_value "delta" S K T r sigma ot <= 1
  | Spec.Put => -1 <= greek_value "delta" S K T r sigma ot <= 0
  end.
Proof.
  intros HS HK HT Hs.
  destruct (greek_value_valid S K T r sigma ot HS HK HT Hs) as (-> & _).
  pose proof (norm_cdf_le_1 (Spec.d1 S K T r sigma)).
  pose proof (norm_cdf_nonneg (Spec.d1 S K T r sigma)).
  destruct (side_of ot); cbn [Spec.delta Spec.greeks]; lra.
Qed.


(** With a rate that is not negative the theta of a call is not
    positive: a call loses value as days pass. *)
Lemma call_theta_nonpos_core S K T r sigma :
  0 < S -> 0 < K -> 0 < T -> 0 < sigma -> 0 <= r ->
  greek_value "theta" S K T r sigma "call" <= 0.
Proof.
  intros HS HK HT Hs Hr.
  destruct (greek_value_valid S K T r sigma "call" HS HK HT Hs)
    as (_ & _ & -> & _).
  cbn [side_of String.eqb Ascii.eqb Bool.eqb Spec.theta Spec.greeks].
  unfold Spec.annual_theta.
  pose proof (sqrt_lt_R0 T HT) as Hq.
  pose proof (norm_pdf_pos (Spec.d1 S K T r sigma)) as Hp.
  pose proof (norm_cdf_nonneg (Spec.d2 S K T r sigma)) as Hc.
  pose proof (discounted_strike_pos K r T HK) as HD.
  assert (H1 : 0 <= S * norm_pdf (Spec.d1 S K T r sigma) * sigma / (2 * sqrt T)).
  { apply Rlt_le, Rdiv_lt_0_compat; [| lra].
    apply Rmult_lt_0_compat; [apply Rmult_lt_0_compat |]; assumption. }
  assert (H2 : 0 <= r * K * exp (- (r * T)) * norm_cdf (Spec.d2 S K T r sigma)).
  { rewrite (Rmult_assoc r). apply Rmult_le_pos; [| exact Hc].
    apply Rmult_le_pos; lra. }
  replace (- (S * norm_pdf (Spec.d1 S K T r sigma) * sigma) / (2 * sqrt T))
    with (- (S * norm_pdf (Spec.d1 S K T r sigma) * sigma / (2 * sqrt T)))
    by (field; lra).
  lra.
Qed.

(** The rho of a call is not negative, the rho of a put is not
    positive. *)
Lemma rho_sign_core S K T r sigma ot :
  0 < S -> 0 < K -> 0 < T -> 0 < sigma ->
  match side_of ot with
  | Spec.Call => 0 <= greek_value "rho" S K T r sigma ot
  | Spec.Put => greek_value "rho" S K T r sigma ot <= 0
  end.
Proof.
  intros HS HK HT Hs.
  destruct (greek_value_valid S K T r sigma ot HS HK HT Hs)
    as (_ & _ & _ & _ & ->).
  pose proof (discounted_strike_pos K r T HK) as HD.
  pose proof (norm_cdf_nonneg (Spec.d2 S K T r sigma)) as Hc.
  pose proof (norm_cdf_nonneg (- Spec.d2 S K T r sigma)) as Hp.
  destruct (side_of ot); cbn [Spec.rho Spec.greeks]; unfold Spec.annual_rho.
  - assert (0 <= K * T * exp (- (r * T)) * norm_cdf (Spec.d2 S K T r sigma)).
    { apply Rmult_le_pos; [| exact Hc].
      replace (K * T * exp (- (r * T))) with (T * (K * exp (- (r * T)))) by ring.
      apply Rmult_le_pos; lra. }
    lra.
  - assert (0 <= K * T * exp (- (r * T)) * norm_cdf (- Spec.d2 S K T r sigma)).
    { apply Rmult_le_pos; [| exact Hp].
      replace (K * T * exp (- (r * T))) with (T * (K * exp (- (r * T)))) by ring.
      apply Rmult_le_pos; lra. }
    lra.
Qed.

(** Between a call and a put on the same parameters: the deltas
    differ by [1], the thetas by the daily interest on the discounted
    strike, the rhos by [K T exp(-rT)] per percentage point. *)
Lemma greeks_parity_core S K T r sigma :
  0 < S -> 0 < K -> 0 < T -> 0 < sigma ->
  greek_value "delta" S K T r sigma "call"
  - greek_value "delta" S K T r sigma "put" = 1 /\
  greek_value "theta" S K T r sigma "call"
  - greek_value "theta" S K T r sigma "put"
  = - (r * K * np_exp (- r * T)) / 365 /\
  greek_value "rho" S K T r sigma "call"
  - greek_value "rho" S K T r sigma "put"
  = K * T * np_exp (- r * T) / 100.
Proof.
  intros HS HK HT Hs.
  destruct (greek_value_valid S K T r sigma "call" HS HK HT Hs)
    as (-> & _ & -> & _ & ->).
  destruct (greek_value_valid S K T r sigma "put" HS HK HT Hs)
    as (-> & _ & -> & _ & ->).
  rewrite np_exp_neg_mult.
  pose proof (sqrt_lt_R0 T HT) as Hq.
  cbn [side_of String.eqb Ascii.eqb Bool.eqb
       Spec.delta Spec.theta Spec.rho Spec.greeks].
  unfold Spec.annual_theta, Spec.annual_rho. rewrite !norm_cdf_opp.
  repeat split; field; lra.
Qed.

(** Vega and gamma are tied: a hundred times the vega is the gamma
    times [S^2 * sigma * T]. *)
Lemma vega_gamma_relation_core S K T r sigma ot :
  0 < S -> 0 < K -> 0 < T -> 0 < sigma ->
  100 * greek_value "vega" S K T r sigma ot
  = greek_value "gamma" S K T r sigma ot * (S ^ 2 * sigma * T).
Proof.
  intros HS HK HT Hs.
  destruct (greek_value_valid S K T r sigma ot HS HK HT Hs)
    as (_ & -> & _ & -> & _).
  pose proof (sqrt_lt_R0 T HT) as Hq.
  assert (Hq2 : sqrt T * sqrt T = T) by (apply sqrt_sqrt; lra).
  cbn [Spec.gamma Spec.vega Spec.greeks]. unfold Spec.annual_vega.
  replace (S ^ 2 * sigma * T) with (S ^ 2 * sigma * (sqrt T * sqrt T))
    by (rewrite Hq2; reflexivity).
  field. lra.
Qed.

(** ** Monotonicity *)

(** With the other parameters fixed, the price of a call does not
    decrease when the spot rises, and the price of a put does not
    increase. *)
Lemma price_monotone_in_spot_core S1 S2 K T r sigma ot :
  0 < S1 -> S1 <= S2 -> 0 < K -> 0 < T -> 0 < sigma ->
  match side_of ot with
  | Spec.Call => price_value S1 K T r sigma ot <= price_value S2 K T r sigma ot
  | Spec.Put => price_value S2 K T r sigma ot <= price_value S1 K T r sigma ot
  end.
Proof.
  intros H1 H12 HK HT Hs.
  destruct (Req_dec S1 S2) as [<- | Hne].
  { destruct (side_of ot); lra. }
  destruct (MVT_cor2 (fun s => price_value s K T r sigma ot)
              (fun s => greek_value "delta" s K T r sigma ot) S1 S2)
    as (c & Hc & Hc12); [lra | |].
  { intros c Hc. apply delta_is_price_slope_core; try assumption. lra. }
  pose proof (delta_bounds_core c K T r sigma ot ltac:(lra) HK HT Hs) as Hd.
  cbv beta in Hc. destruct (side_of ot); nra.
Qed.



(** With the other parameters fixed, the price of a call does not
    decrease when the rate rises, and the price of a put does not
    increase. *)
Lemma price_monotone_in_rate_core S K T r1 r2 sigma ot :
  0 < S -> 0 < K -> 0 < T -> 0 < sigma -> r1 <= r2 ->
  match side_of ot with
  | Spec.Call => price_value S K T r1 sigma ot <= price_value S K T r2 sigma ot
  | Spec.Put => price_value S K T r2 sigma ot <= price_value S K T r1 sigma ot
  end.
Proof.
  intros HS HK HT Hs H12.
  destruct (Req_dec r1 r2) as [<- | Hne].
  { destruct (side_of ot); lra. }
  destruct (MVT_cor2 (fun rr => price_value S K T rr sigma ot)
              (fun rr => 100 * greek_value "rho" S K T rr sigma ot) r1 r2)
    as (c & Hc & Hc12); [lra | |].
  { intros c Hc. apply rho_is_price_slope_core; assumption. }
  pose proof (rho_sign_core S K T c sigma ot HS HK HT Hs) as Hd.
  cbv beta in Hc. destruct (side_of ot); nra.
Qed.


(** ** What the two operations return

    The lemmas above are about the numbers [price_value] and
    [greek_value] read.  The theorems of this part state them on what
    [black_scholes_price] and [calculate_greeks] return. *)

Lemma returns_price_valid S K T r sigma ot :
  0 < S -> 0 < K -> 0 < T -> 0 < sigma ->
  returns_price S K T r sigma ot (price_value S K T r sigma ot).
Proof.
  intros HS HK HT Hs. unfold returns_price.
  destruct (price_value_valid S K T r sigma ot HS HK HT Hs) as [-> ->].
  reflexivity.
Qed.

Lemma returns_greek_valid name S K T r sigma ot :
  0 < S -> 0 < K -> 0 < T -> 0 < sigma -> name ∈ greek_names ->
  returns_greek name S K T r sigma ot (greek_value name S K T r sigma ot).
Proof.
  intros HS HK HT Hs Hn.
  destruct (greek_value_returned S K T r sigma ot HS HK HT Hs) as (g & Hg & Hv).
  exists g. split; [exact Hg | apply Hv; exact Hn].
Qed.

Lemma delta_name : "delta"%string ∈ greek_names.
Proof. unfold greek_names. set_solver. Qed.
Lemma gamma_name : "gamma"%string ∈ greek_names.
Proof. unfold greek_names. set_solver. Qed.
Lemma theta_name : "theta"%string ∈ greek_names.
Proof. unfold greek_names. set_solver. Qed.
Lemma vega_name : "vega"%string ∈ greek_names.
Proof. unfold greek_names. set_solver. Qed.
Lemma rho_name : "rho"%string ∈ greek_names.
Proof. unfold greek_names. set_solver. Qed.

Create HintDb bs_returns.
#[local] Hint Resolve delta_name gamma_name theta_name vega_name rho_name
  returns_price_valid returns_greek_valid : bs_returns.

(** *** The sensitivities are the slopes of the price *)

(** X1. [delta] is the slope of the price along the spot: the delta that
    [calculate_greeks] returns is the derivative, in the spot, of the
    price that [black_scholes_price] returns. *)
Theorem delta_is_price_slope S K T r sigma ot :
  0 < S -> 0 < K -> 0 < T -> 0 < sigma ->
  exists delta : R,
    returns_greek "delta" S K T r sigma ot delta /\
    (forall s, 0 < s ->
               returns_price s K T r sigma ot (price_value s K T r sigma ot)) /\
    derivable_pt_lim (fun s => price_value s K T r sigma ot) S delta.
Proof.
  intros HS HK HT Hs. exists (greek_value "delta" S K T r sigma ot).
  split; [auto with bs_returns |].
  split; [intros s Hpos; auto with bs_returns |].
  apply delta_is_price_slope_core; assumption.
Qed.

Lemma delta_is_price_slope_witness :
  exists delta : R,
    returns_greek "delta" 100 105 (1/4) (5/100) (2/10) "call" delta /\
    (forall s, 0 < s ->
               returns_price s 105 (1/4) (5/100) (2/10) "call"
                             (price_value s 105 (1/4) (5/100) (2/10) "call")) /\
    derivable_pt_lim (fun s => price_value s 105 (1/4) (5/100) (2/10) "call")
                     100 delta.
Proof.
  apply (delta_is_price_slope 100 105 (1/4) (5/100) (2/10) "call"); lra.
Defined.

(** X2. [gamma] is the slope of [delta] along the spot. *)
Theorem gamma_is_delta_slope S K T r sigma ot :
  0 < S -> 0 < K -> 0 < T -> 0 < sigma ->
  exists gamma : R,
    returns_greek "gamma" S K T r sigma ot gamma /\
    (forall s, 0 < s ->
               returns_greek "delta" s K T r sigma ot
                             (greek_value "delta" s K T r sigma ot)) /\
    derivable_pt_lim (fun s => greek_value "delta" s K T r sigma ot) S gamma.
Proof.
  intros HS HK HT Hs. exists (greek_value "gamma" S K T r sigma ot).
  split; [auto with bs_returns |].
  split; [intros s Hpos; auto with bs_returns |].
  apply gamma_is_delta_slope_core; assumption.
Qed.

Lemma gamma_is_delta_slope_witness :
  exists gamma : R,
    returns_greek "gamma" 100 105 (1/4) (5/100) (2/10) "put" gamma /\
    (forall s, 0 < s ->
               returns_greek "delta" s 105 (1/4) (5/100) (2/10) "put"
                 (greek_value "delta" s 105 (1/4) (5/100) (2/10) "put")) /\
    derivable_pt_lim
      (fun s => greek_value "delta" s 105 (1/4) (5/100) (2/10) "put") 100 gamma.
Proof.
  apply (gamma_is_delta_slope 100 105 (1/4) (5/100) (2/10) "put"); lra.
Defined.

(** X3. [vega], which is given per percentage point, is a hundredth of
    the slope of the price along the volatility. *)
Theorem vega_is_price_slope S K T r sigma ot :
  0 < S -> 0 < K -> 0 < T -> 0 < sigma ->
  exists vega : R,
    returns_greek "vega" S K T r sigma ot vega /\
    (forall sg, 0 < sg ->
                returns_price S K T r sg ot (price_value S K T r sg ot)) /\
    derivable_pt_lim (fun sg => price_value S K T r sg ot) sigma (100 * vega).
Proof.
  intros HS HK HT Hs. exists (greek_value "vega" S K T r sigma ot).
  split; [auto with bs_returns |].
  split; [intros sg Hpos; auto with bs_returns |].
  apply vega_is_price_slope_core; assumption.
Qed.

Lemma vega_is_price_slope_witness :
  exists vega : R,
    returns_greek "vega" 100 105 (1/4) (5/100) (2/10) "call" vega /\
    (forall sg, 0 < sg ->
                returns_price 100 105 (1/4) (5/100) sg "call"
                              (price_value 100 105 (1/4) (5/100) sg "call")) /\
    derivable_pt_lim (fun sg => price_value 100 105 (1/4) (5/100) sg "call")
                     (2/10) (100 * vega).
Proof.
  apply (vega_is_price_slope 100 105 (1/4) (5/100) (2/10) "call"); lra.
Defined.

(** X4. [theta], which is given per day, is minus the slope of the price
    along the time to expiry, over 365. *)
Theorem theta_is_price_decay S K T r sigma ot :
  0 < S -> 0 < K -> 0 < T -> 0 < sigma ->
  exists theta : R,
    returns_greek "theta" S K T r sigma ot theta /\
    (forall t, 0 < t ->
               returns_price S K t r sigma ot (price_value S K t r sigma ot)) /\
    derivable_pt_lim (fun t => price_value S K t r sigma ot) T
                     (- (365 * theta)).
Proof.
  intros HS HK HT Hs. exists (greek_value "theta" S K T r sigma ot).
  split; [auto with bs_returns |].
  split; [intros t Hpos; auto with bs_returns |].
  apply theta_is_price_decay_core; assumption.
Qed.

Lemma theta_is_price_decay_witness :
  exists theta : R,
    returns_greek "theta" 100 105 (1/4) (5/100) (2/10) "put" theta /\
    (forall t, 0 < t ->
               returns_price 100 105 t (5/100) (2/10) "put"
                             (price_value 100 105 t (5/100) (2/10) "put")) /\
    derivable_pt_lim (fun t => price_value 100 105 t (5/100) (2/10) "put")
                     (1/4) (- (365 * theta)).
Proof.
  apply (theta_is_price_decay 100 105 (1/4) (5/100) (2/10) "put"); lra.
Defined.

(** X5. [rho], which is given per percentage point, is a hundredth of the
    slope of the price along the rate. *)
Theorem rho_is_price_slope S K T r sigma ot :
  0 < S -> 0 < K -> 0 < T -> 0 < sigma ->
  exists rho : R,
    returns_greek "rho" S K T r sigma ot rho /\
    (forall rr, returns_price S K T rr sigma ot (price_value S K T rr sigma ot)) /\
    derivable_pt_lim (fun rr => price_value S K T rr sigma ot) r (100 * rho).
Proof.
  intros HS HK HT Hs. exists (greek_value "rho" S K T r sigma ot).
  split; [auto with bs_returns |].
  split; [intros rr; auto with bs_returns |].
  apply rho_is_price_slope_core; assumption.
Qed.

Lemma rho_is_price_slope_witness :
  exists rho : R,
    returns_greek "rho" 100 105 (1/4) (5/100) (2/10) "call" rho /\
    (forall rr, returns_price 100 105 (1/4) rr (2/10) "call"
                              (price_value 100 105 (1/4) rr (2/10) "call")) /\
    derivable_pt_lim (fun rr => price_value 100 105 (1/4) rr (2/10) "call")
                     (5/100) (100 * rho).
Proof.
  apply (rho_is_price_slope 100 105 (1/4) (5/100) (2/10) "call"); lra.
Defined.

(** *** Bounds and signs *)



(** X8. The delta of a call lies in [[0, 1]], the delta of a put in
    [[-1, 0]]. *)
Theorem delta_bounds S K T r sigma ot :
  0 < S -> 0 < K -> 0 < T -> 0 < sigma ->
  exists delta : R,
    returns_greek "delta" S K T r sigma ot delta /\
    match side_of ot with
    | Spec.Call => 0 <= delta <= 1
    | Spec.Put => -1 <= delta <= 0
    end.
Proof.
  intros HS HK HT Hs. exists (greek_value "delta" S K T r sigma ot).
  split; [auto with bs_returns |].
  apply delta_bounds_core; assumption.
Qed.

Lemma delta_bounds_witness :
  exists delta : R,
    returns_greek "delta" 100 105 (1/4) (5/100) (2/10) "put" delta /\
    -1 <= delta <= 0.
Proof. apply (delta_bounds 100 105 (1/4) (5/100) (2/10) "put"); lra. Defined.

(** X9. With a rate that is not negative the theta of a call is not
    positive: a call loses value as the days pass. *)
Theorem call_theta_nonpos S K T r sigma :
  0 < S -> 0 < K -> 0 < T -> 0 < sigma -> 0 <= r ->
  exists theta : R,
    returns_greek "theta" S K T r sigma "call" theta /\ theta <= 0.
Proof.
  intros HS HK HT Hs Hr. exists (greek_value "theta" S K T r sigma "call").
  split; [auto with bs_returns |].
  apply call_theta_nonpos_core; assumption.
Qed.

Lemma call_theta_nonpos_witness :
  exists theta : R,
    returns_greek "theta" 100 105 (1/4) (5/100) (2/10) "call" theta /\
    theta <= 0.
Proof. apply (call_theta_nonpos 100 105 (1/4) (5/100) (2/10)); lra. Defined.

(** X10. The rho of a call is not negative, the rho of a put is not
    positive. *)
Theorem rho_sign S K T r sigma ot :
  0 < S -> 0 < K -> 0 < T -> 0 < sigma ->
  exists rho : R,
    returns_greek "rho" S K T r sigma ot rho /\
    match side_of ot with
    | Spec.Call => 0 <= rho
    | Spec.Put => rho <= 0
    end.
Proof.
  intros HS HK HT Hs. exists (greek_value "rho" S K T r sigma ot).
  split; [auto with bs_returns |].
  apply rho_sign_core; assumption.
Qed.

Lemma rho_sign_witness :
  exists rho : R,
    returns_greek "rho" 100 105 (1/4) (5/100) (2/10) "put" rho /\ rho <= 0.
Proof. apply (rho_sign 100 105 (1/4) (5/100) (2/10) "put"); lra. Defined.

(** X11. Between a call and a put on the same parameters the deltas differ
    by [1], the thetas by the daily interest on the discounted strike
    and the rhos by [K T exp(-rT)] per percentage point. *)
Theorem greeks_parity S K T r sigma :
  0 < S -> 0 < K -> 0 < T -> 0 < sigma ->
  exists dc dp tc tp rc rp : R,
    returns_greek "delta" S K T r sigma "call" dc /\
    returns_greek "delta" S K T r sigma "put" dp /\
    returns_greek "theta" S K T r sigma "call" tc /\
    returns_greek "theta" S K T r sigma "put" tp /\
    returns_greek "rho" S K T r sigma "call" rc /\
    returns_greek "rho" S K T r sigma "put" rp /\
    dc - dp = 1 /\
    tc - tp = - (r * K * np_exp (- r * T)) / 365 /\
    rc - rp = K * T * np_exp (- r * T) / 100.
Proof.
  intros HS HK HT Hs.
  exists (greek_value "delta" S K T r sigma "call"),
         (greek_value "delta" S K T r sigma "put"),
         (greek_value "theta" S K T r sigma "call"),
         (greek_value "theta" S K T r sigma "put"),
         (greek_value "rho" S K T r sigma "call"),
         (greek_value "rho" S K T r sigma "put").
  repeat (split; [solve [auto with bs_returns] |]).
  apply greeks_parity_core; assumption.
Qed.

Lemma greeks_parity_witness :
  exists dc dp tc tp rc rp : R,
    returns_greek "delta" 100 105 (1/4) (5/100) (2/10) "call" dc /\
    returns_greek "delta" 100 105 (1/4) (5/100) (2/10) "put" dp /\
    returns_greek "theta" 100 105 (1/4) (5/100) (2/10) "call" tc /\
    returns_greek "theta" 100 105 (1/4) (5/100) (2/10) "put" tp /\
    returns_greek "rho" 100 105 (1/4) (5/100) (2/10) "call" rc /\
    returns_greek "rho" 100 105 (1/4) (5/100) (2/10) "put" rp /\
    dc - dp = 1 /\
    tc - tp = - ((5/100) * 105 * np_exp (- (5/100) * (1/4))) / 365 /\
    rc - rp = 105 * (1/4) * np_exp (- (5/100) * (1/4)) / 100.
Proof. apply (greeks_parity 100 105 (1/4) (5/100) (2/10)); lra. Defined.

(** X12. Vega and gamma are tied: a hundred times the vega is the gamma
    times [S^2 * sigma * T]. *)
Theorem vega_gamma_relation S K T r sigma ot :
  0 < S -> 0 < K -> 0 < T -> 0 < sigma ->
  exists vega gamma : R,
    returns_greek "vega" S K T r sigma ot vega /\
    returns_greek "gamma" S K T r sigma ot gamma /\
    100 * vega = gamma * (S ^ 2 * sigma * T).
Proof.
  intros HS HK HT Hs.
  exists (greek_value "vega" S K T r sigma ot),
         (greek_value "gamma" S K T r sigma ot).
  split; [auto with bs_returns |]. split; [auto with bs_returns |].
  apply vega_gamma_relation_core; assumption.
Qed.

Lemma vega_gamma_relation_witness :
  exists vega gamma : R,
    returns_greek "vega" 100 105 (1/4) (5/100) (2/10) "call" vega /\
    returns_greek "gamma" 100 105 (1/4) (5/100) (2/10) "call" gamma /\
    100 * vega = gamma * (100 ^ 2 * (2/10) * (1/4)).
Proof.
  apply (vega_gamma_relation 100 105 (1/4) (5/100) (2/10) "call"); lra.
Defined.

(** *** Monotonicity *)

(** X13. With the other parameters fixed, the price of a call does not
    decrease when the spot rises, and the price of a put does not
    increase. *)
Theorem price_monotone_in_spot S1 S2 K T r sigma ot :
  0 < S1 -> S1 <= S2 -> 0 < K -> 0 < T -> 0 < sigma ->
  exists p1 p2 : R,
    returns_price S1 K T r sigma ot p1 /\
    returns_price S2 K T r sigma ot p2 /\
    match side_of ot with
    | Spec.Call => p1 <= p2
    | Spec.Put => p2 <= p1
    end.
Proof.
  intros H1 H12 HK HT Hs.
  assert (H2 : 0 < S2) by lra.
  exists (price_value S1 K T r sigma ot), (price_value S2 K T r sigma ot).
  split; [auto with bs_returns |]. split; [auto with bs_returns |].
  apply price_monotone_in_spot_core; assumption.
Qed.

Lemma price_monotone_in_spot_witness :
  exists p1 p2 : R,
    returns_price 100 105 (1/4) (5/100) (2/10) "put" p1 /\
    returns_price 110 105 (1/4) (5/100) (2/10) "put" p2 /\
    p2 <= p1.
Proof.
  apply (price_monotone_in_spot 100 110 105 (1/4) (5/100) (2/10) "put"); lra.
Defined.





(** X16. With the other parameters fixed, the price of a call does not
    decrease when the rate rises, and the price of a put does not
    increase. *)
Theorem price_monotone_in_rate S K T r1 r2 sigma ot :
  0 < S -> 0 < K -> 0 < T -> 0 < sigma -> r1 <= r2 ->
  exists p1 p2 : R,
    returns_price S K T r1 sigma ot p1 /\
    returns_price S K T r2 sigma ot p2 /\
    match side_of ot with
    | Spec.Call => p1 <= p2
    | Spec.Put => p2 <= p1
    end.
Proof.
  intros HS HK HT Hs H12.
  exists (price_value S K T r1 sigma ot), (price_value S K T r2 sigma ot).
  split; [auto with bs_returns |]. split; [auto with bs_returns |].
  apply price_monotone_in_rate_core; assumption.
Qed.

Lemma price_monotone_in_rate_witness :
  exists p1 p2 : R,
    returns_price 100 105 (1/4) (1/100) (2/10) "call" p1 /\
    returns_price 100 105 (1/4) (5/100) (2/10) "call" p2 /\
    p1 <= p2.
Proof.
  apply (price_monotone_in_rate 100 105 (1/4) (1/100) (5/100) (2/10) "call");
    lra.
Defined.



(** ** Edges the guards leave open *)





(** * The page *)

Import Main.

(** ** Lists *)

Lemma mapM_Return {A B : Type} (f : A -> run B) (g : A -> B) (l : list A) :
  Forall (fun x => f x = Return (g x)) l -> mapM f l = Return (map g l).
Proof.
  induction 1 as [| x l Hx _ IH]; [reflexivity |].
  cbn [mapM map]. rewrite Hx. cbn [mbind run_bind]. rewrite IH. reflexivity.
Qed.

Lemma StronglySorted_map_seq {A : Type} (Rel : A -> A -> Prop) (f : nat -> A)
      (start len : nat) :
  (forall i j, (i < j)%nat -> Rel (f i) (f j)) ->
  StronglySorted Rel (map f (seq start len)).
Proof.
  intros Hf. revert start. induction len as [| len IH]; intros start.
  - constructor.
  - cbn [seq map]. constructor; [apply IH |].
    apply Forall_forall. intros y Hy. apply list_elem_of_In in Hy.
    apply in_map_iff in Hy as (j & <- & Hj). apply in_seq in Hj.
    apply Hf. lia.
Qed.

Lemma StronglySorted_map_on {A B : Type} (P : A -> Prop)
      (R1 : A -> A -> Prop) (R2 : B -> B -> Prop) (g : A -> B) (l : list A) :
  (forall x y, P x -> P y -> R1 x y -> R2 (g x) (g y)) ->
  Forall P l -> StronglySorted R1 l -> StronglySorted R2 (map g l).
Proof.
  intros Hg HP Hl. induction Hl as [| x l Hl IH Hx]; [constructor |].
  apply Forall_cons_1 in HP as [Px Pl].
  cbn [map]. constructor; [apply IH; exact Pl |].
  apply Forall_forall. intros y Hy. apply list_elem_of_In in Hy.
  apply in_map_iff in Hy as (z & <- & Hz).
  apply Hg; [exact Px | | ].
  - rewrite Forall_forall in Pl. apply Pl.
    apply list_elem_of_In. exact Hz.
  - rewrite Forall_forall in Hx. apply Hx. apply list_elem_of_In. exact Hz.
Qed.

(** ** [np.linspace] *)

Section Linspace.
Variables (start stop : R) (m : nat).

Let num := S (S m).
Let step := (stop - start) / INR (S m).

Lemma INR_succ_pos : 0 < INR (S m).
Proof. apply lt_0_INR. lia. Qed.

Lemma np_linspace_unfold :
  np_linspace start stop num = map (fun i => INR i * step + start) (seq 0 num).
Proof. reflexivity. Qed.

Lemma np_linspace_length : length (np_linspace start stop num) = num.
Proof. rewrite np_linspace_unfold, length_map, length_seq. reflexivity. Qed.

(** Every number of the list is a barycentre of the two ends. *)
Lemma np_linspace_In x :
  In x (np_linspace start stop num) ->
  exists t, 0 <= t <= 1 /\ x = start + t * (stop - start).
Proof.
  rewrite np_linspace_unfold. intros Hx.
  apply in_map_iff in Hx as (i & <- & Hi). apply in_seq in Hi.
  pose proof INR_succ_pos as Hm.
  exists (INR i / INR (S m)). split.
  - split.
    + apply Rmult_le_pos; [apply pos_INR | apply Rlt_le, Rinv_0_lt_compat, Hm].
    + apply (Rmult_le_reg_r (INR (S m))); [exact Hm |].
      replace (INR i / INR (S m) * INR (S m)) with (INR i) by (field; lra).
      rewrite Rmult_1_l. apply le_INR. unfold num in Hi. lia.
  - unfold step. field. lra.
Qed.

Lemma np_linspace_first : hd_error (np_linspace start stop num) = Some start.
Proof.
  rewrite np_linspace_unfold. unfold num. cbn [seq map hd_error]. f_equal.
  cbn [INR]. ring.
Qed.

Lemma np_linspace_last : last (np_linspace start stop num) = Some stop.
Proof.
  rewrite np_linspace_unfold. unfold num.
  rewrite (seq_S (S m) 0), map_app. cbn [map]. rewrite last_snoc. f_equal.
  pose proof INR_succ_pos as Hm. unfold step. cbn [Nat.add]. field. lra.
Qed.

Lemma np_linspace_increasing :
  start < stop -> StronglySorted Rlt (np_linspace start stop num).
Proof.
  intros Hlt. rewrite np_linspace_unfold.
  apply StronglySorted_map_seq. intros i j Hij.
  pose proof INR_succ_pos as Hm.
  assert (Hs : 0 < step) by (apply Rdiv_lt_0_compat; lra).
  apply lt_INR in Hij. nra.
Qed.

End Linspace.

(** ** Calls of the calculator on valid parameters *)

Lemma engine_price S K T r sigma ot :
  0 < S -> 0 < K -> 0 < T -> 0 < sigma ->
  engine (black_scholes_price S K T r sigma ot)
  = Return (price_value S K T r sigma ot).
Proof.
  intros HS HK HT Hs.
  destruct (price_value_valid S K T r sigma ot HS HK HT Hs) as [-> ->].
  reflexivity.
Qed.

Lemma price_value_nonneg S K T r sigma ot :
  0 < S -> 0 < K -> 0 < T -> 0 < sigma -> 0 <= price_value S K T r sigma ot.
Proof.
  intros HS HK HT Hs.
  destruct (price_value_valid S K T r sigma ot HS HK HT Hs) as [_ ->].
  apply formula_nonneg; assumption.
Qed.

Lemma linspace_between (a b : R) (m : nat) (x : R) :
  a <= b -> In x (np_linspace a b (S (S m))) -> a <= x <= b.
Proof.
  intros Hab Hx. destruct (np_linspace_In a b m x Hx) as (t & Ht & ->). nra.
Qed.

Lemma spot_range_between S x :
  0 < S -> In x (spot_range S) -> S * 0.7 <= x <= S * 1.3.
Proof. intros HS. apply linspace_between. lra. Qed.

Lemma spot_range_positive S : 0 < S -> Forall (fun x => 0 < x) (spot_range S).
Proof.
  intros HS. apply Forall_forall. intros x Hx. apply list_elem_of_In in Hx.
  pose proof (spot_range_between S x HS Hx). lra.
Qed.

Lemma spot_range_increasing S : 0 < S -> StronglySorted Rlt (spot_range S).
Proof. intros HS. apply (np_linspace_increasing _ _ 48). lra. Qed.

(** ** The sweeps of the first two tabs *)

(** X20. The spot sweep: 50 spots from 70% to 130% of the spot, in
    increasing order; the calculator prices every one of them, no price
    is negative, and along the sweep the prices of a call do not
    decrease and those of a put do not increase. *)
Theorem spot_sweep S K T r sigma ot :
  0 < S -> 0 < K -> 0 < T -> 0 < sigma ->
  hd_error (spot_range S) = Some (S * 0.7) /\
  last (spot_range S) = Some (S * 1.3) /\
  StronglySorted Rlt (spot_range S) /\
  exists ps : list R,
    prices S K T r sigma ot = Return ps /\
    length ps = 50%nat /\
    Forall (fun p => 0 <= p) ps /\
    match side_of ot with
    | Spec.Call => StronglySorted Rle ps
    | Spec.Put => StronglySorted Rge ps
    end.
Proof.
  intros HS HK HT Hs.
  split; [apply (np_linspace_first _ _ 48) |].
  split; [apply (np_linspace_last _ _ 48) |].
  split; [apply spot_range_increasing; exact HS |].
  pose proof (spot_range_positive S HS) as Hpos.
  exists (map (fun spot => price_value spot K T r sigma ot) (spot_range S)).
  split; [| split; [| split]].
  - unfold prices. apply mapM_Return.
    eapply Forall_impl; [exact Hpos |]. intros x Hx.
    apply engine_price; assumption.
  - rewrite length_map. apply (np_linspace_length _ _ 48).
  - apply Forall_forall. intros p Hp. apply list_elem_of_In in Hp.
    apply in_map_iff in Hp as (x & <- & Hx).
    apply price_value_nonneg; try assumption.
    rewrite Forall_forall in Hpos. apply Hpos, list_elem_of_In, Hx.
  - pose proof (spot_range_increasing S HS) as Hinc.
    destruct (side_of ot) eqn:Eside.
    + apply (StronglySorted_map_on (fun x => 0 < x) Rlt); [| exact Hpos | exact Hinc].
      intros x y Hx _ Hxy.
      pose proof (price_monotone_in_spot_core x y K T r sigma ot Hx
                    (Rlt_le _ _ Hxy) HK HT Hs) as H.
      rewrite Eside in H. exact H.
    + apply (StronglySorted_map_on (fun x => 0 < x) Rlt); [| exact Hpos | exact Hinc].
      intros x y Hx _ Hxy.
      pose proof (price_monotone_in_spot_core x y K T r sigma ot Hx
                    (Rlt_le _ _ Hxy) HK HT Hs) as H.
      rewrite Eside in H. apply Rle_ge. exact H.
Qed.

Lemma spot_sweep_witness :
  hd_error (spot_range 100) = Some (100 * 0.7) /\
  last (spot_range 100) = Some (100 * 1.3) /\
  StronglySorted Rlt (spot_range 100) /\
  exists ps : list R,
    prices 100 105 (1/4) (5/100) (2/10) "call" = Return ps /\
    length ps = 50%nat /\
    Forall (fun p => 0 <= p) ps /\
    StronglySorted Rle ps.
Proof. apply (spot_sweep 100 105 (1/4) (5/100) (2/10) "call"); lra. Defined.






(** ** Intrinsic value, time value and moneyness *)




(** X24. For a strike that is positive and a side that is ['call'] or
    ['put'], the label beside the moneyness is "ITM" exactly when the
    intrinsic value is positive. *)
Theorem label_matches_intrinsic_value S K ot :
  0 < K -> ot = "call"%string \/ ot = "put"%string ->
  exists m : R,
    moneyness S K = Return m /\
    (moneyness_label m ot = "ITM"%string <-> 0 < intrinsic_value S K ot).
Proof.
  intros HK Hot. exists ((S / K - 1) * 100). split.
  { unfold moneyness. destruct (Req_dec_T K 0); [lra | reflexivity]. }
  assert (Hpos : 0 < (S / K - 1) * 100 <-> K < S).
  { split; intros H.
    - assert (1 < S / K) by lra.
      apply (Rmult_lt_compat_r K) in H0; [| exact HK].
      replace (S / K * K) with S in H0 by (field; lra). lra.
    - assert (1 < S / K).
      { apply (Rmult_lt_reg_r K); [exact HK |].
        replace (S / K * K) with S by (field; lra). lra. }
      lra. }
  assert (Hneg : (S / K - 1) * 100 < 0 <-> S < K).
  { split; intros H.
    - assert (S / K < 1) by lra.
      apply (Rmult_lt_compat_r K) in H0; [| exact HK].
      replace (S / K * K) with S in H0 by (field; lra). lra.
    - assert (S / K < 1).
      { apply (Rmult_lt_reg_r K); [exact HK |].
        replace (S / K * K) with S by (field; lra). lra. }
      lra. }
  unfold moneyness_label, intrinsic_value, Rltb.
  rewrite !py_max_Rmax.
  destruct Hot as [-> | ->]; cbn [String.eqb Ascii.eqb Bool.eqb].
  - rewrite andb_true_r, andb_false_r, orb_false_r.
    destruct (Rlt_dec 0 ((S / K - 1) * 100)) as [H | H].
    + split; [intros _ | reflexivity].
      apply Hpos in H. rewrite Rmax_right by lra. lra.
    + split; [discriminate |]. intros Hi. exfalso. apply H, Hpos.
      destruct (Rle_dec (S - K) 0) as [Hle | Hgt]; [| lra].
      rewrite Rmax_left in Hi by lra. lra.
  - rewrite andb_false_r, andb_true_r. cbn [orb].
    destruct (Rlt_dec ((S / K - 1) * 100) 0) as [H | H].
    + split; [intros _ | reflexivity].
      apply Hneg in H. rewrite Rmax_right by lra. lra.
    + split; [discriminate |]. intros Hi. exfalso. apply H, Hneg.
      destruct (Rle_dec (K - S) 0) as [Hle | Hgt]; [| lra].
      rewrite Rmax_left in Hi by lra. lra.
Qed.

Lemma label_matches_intrinsic_value_witness :
  exists m : R,
    moneyness 100 105 = Return m /\
    (moneyness_label m "put" = "ITM"%string <-> 0 < intrinsic_value 100 105 "put").
Proof.
  apply (label_matches_intrinsic_value 100 105 "put"); [lra | right; reflexivity].
Defined.

(** ** The scenario table *)

(** X25. The scenario table has its five rows, none with a profit below
    -100%; the row of the current spot shows no profit and no loss; and
    for a call a lower spot never shows a profit and a higher spot never
    a loss, the other way round for a put. *)
Theorem scenario_table S K T r sigma ot :
  0 < S -> 0 < K -> 0 < T -> 0 < sigma ->
  exists rows : list scenario_result,
    scenario_results S K T r sigma ot = Return rows /\
    map scenario_name rows
    = ["Baisse 10%"; "Baisse 5%"; "Actuel"; "Hausse 5%"; "Hausse 10%"]%string /\
    Forall (fun row => -100 <= pnl_pct row) rows /\
    Forall (fun row =>
              (underlying_price row = S -> pnl row = 0 /\ pnl_pct row = 0) /\
              match side_of ot with
              | Spec.Call =>
                (underlying_price row <= S -> pnl row <= 0) /\
                (S <= underlying_price row -> 0 <= pnl row)
              | Spec.Put =>
                (underlying_price row <= S -> 0 <= pnl row) /\
                (S <= underlying_price row -> pnl row <= 0)
              end) rows.
Proof.
  intros HS HK HT Hs.
  set (price := price_value S K T r sigma ot).
  set (row := fun scenario : string * R =>
         let new_price := price_value (snd scenario) K T r sigma ot in
         {| scenario_name := fst scenario;
            underlying_price := snd scenario;
            option_price := new_price;
            pnl := new_price - price;
            pnl_pct := if Rltb 0 price
                       then (new_price - price) / price * 100 else 0 |}).
  assert (Hspots : Forall (fun sc : string * R => 0 < snd sc) (scenarios S)).
  { unfold scenarios. repeat constructor; cbn [snd]; lra. }
  exists (map row (scenarios S)).
  split; [| split; [reflexivity | split]].
  - unfold scenario_results. rewrite engine_price by assumption.
    cbn [mbind run_bind]. apply mapM_Return.
    eapply Forall_impl; [exact Hspots |]. intros sc Hsc. cbv beta.
    rewrite engine_price by assumption. reflexivity.
  - apply Forall_forall. intros rw Hrw. apply list_elem_of_In in Hrw.
    apply in_map_iff in Hrw as (sc & <- & Hsc).
    rewrite Forall_forall in Hspots.
    pose proof (Hspots sc (proj2 (list_elem_of_In _ _) Hsc)) as Hpos.
    pose proof (price_value_nonneg (snd sc) K T r sigma ot Hpos HK HT Hs) as Hn.
    cbn [row pnl_pct]. unfold Rltb.
    destruct (Rlt_dec 0 price) as [Hp | Hp]; [| lra].
    assert (-1 <= (price_value (snd sc) K T r sigma ot - price) / price).
    { apply (Rmult_le_reg_r price); [exact Hp |].
      replace ((price_value (snd sc) K T r sigma ot - price) / price * price)
        with (price_value (snd sc) K T r sigma ot - price) by (field; lra).
      lra. }
    lra.
  - apply Forall_forall. intros rw Hrw. apply list_elem_of_In in Hrw.
    apply in_map_iff in Hrw as (sc & <- & Hsc).
    rewrite Forall_forall in Hspots.
    pose proof (Hspots sc (proj2 (list_elem_of_In _ _) Hsc)) as Hpos.
    cbn [row pnl pnl_pct underlying_price]. split.
    + intros ->. fold price.
      replace (price - price) with 0 by ring. split; [reflexivity |].
      destruct (Rltb 0 price); [| reflexivity].
      unfold Rdiv. rewrite Rmult_0_l, Rmult_0_l. reflexivity.
    + pose proof (price_monotone_in_spot_core (snd sc) S K T r sigma ot) as Hlo.
      pose proof (price_monotone_in_spot_core S (snd sc) K T r sigma ot) as Hhi.
      fold price in Hlo, Hhi.
      destruct (side_of ot); split; intros Hle.
      * specialize (Hlo Hpos Hle HK HT Hs). lra.
      * specialize (Hhi HS Hle HK HT Hs). lra.
      * specialize (Hlo Hpos Hle HK HT Hs). lra.
      * specialize (Hhi HS Hle HK HT Hs). lra.
Qed.

Lemma scenario_table_witness :
  exists rows : list scenario_result,
    scenario_results 100 105 (1/4) (5/100) (2/10) "call" = Return rows /\
    map scenario_name rows
    = ["Baisse 10%"; "Baisse 5%"; "Actuel"; "Hausse 5%"; "Hausse 10%"]%string /\
    Forall (fun row => -100 <= pnl_pct row) rows /\
    Forall (fun row =>
              (underlying_price row = 100 -> pnl row = 0 /\ pnl_pct row = 0) /\
              (underlying_price row <= 100 -> pnl row <= 0) /\
              (100 <= underlying_price row -> 0 <= pnl row)) rows.
Proof. apply (scenario_table 100 105 (1/4) (5/100) (2/10) "call"); lra. Defined.

(** ** The heat map *)



(** ** The strategies *)

(** X27. With ['call'] selected and a rate that is not negative, the four
    strategies are all priced, no break-even spot is negative and no
    largest gain shown as a number is negative. *)
Theorem strategy_table S K T r sigma :
  0 < S -> 0 < K -> 0 < T -> 0 < sigma -> 0 <= r ->
  exists rows : list strategy,
    strategies S K T r sigma "call" = Return rows /\
    map nom rows
    = ["Long Call"; "Long Put"; "Covered Call"; "Protective Put"]%string /\
    Forall (fun row =>
              0 <= seuil row /\
              match max_gain row with
              | inr gain => 0 <= gain
              | inl _ => True
              end) rows.
Proof.
  intros HS HK HT Hs Hr.
  pose proof (price_bounds_core S K T r sigma "call" HS HK HT Hs) as Hc.
  pose proof (price_bounds_core S K T r sigma "put" HS HK HT Hs) as Hp.
  cbn [side_of String.eqb Ascii.eqb Bool.eqb] in Hc, Hp. cbv zeta in Hc, Hp.
  rewrite np_exp_neg_mult in Hc, Hp.
  pose proof (price_value_nonneg S K T r sigma "call" HS HK HT Hs) as Hc0.
  pose proof (price_value_nonneg S K T r sigma "put" HS HK HT Hs) as Hp0.
  assert (He : exp (- (r * T)) <= 1).
  { rewrite <- exp_0. destruct (Req_dec (r * T) 0) as [-> | Hne].
    - rewrite Ropp_0. lra.
    - apply Rlt_le, exp_increasing. nra. }
  assert (Hp1 : price_value S K T r sigma "put" <= K) by nra.
  unfold strategies. rewrite !engine_price by assumption.
  cbn [mbind run_bind]. eexists. split; [reflexivity |].
  split; [reflexivity |].
  repeat match goal with
         | |- Forall _ (_ :: _) => constructor
         | |- Forall _ [] => constructor
         | |- _ /\ _ => split
         end; cbn [seuil max_gain]; try lra; try exact I.
  unfold Rltb. destruct (Rlt_dec S K); lra.
Qed.

Lemma strategy_table_witness :
  exists rows : list strategy,
    strategies 100 105 (1/4) (5/100) (2/10) "call" = Return rows /\
    map nom rows
    = ["Long Call"; "Long Put"; "Covered Call"; "Protective Put"]%string /\
    Forall (fun row =>
              0 <= seuil row /\
              match max_gain row with
              | inr gain => 0 <= gain
              | inl _ => True
              end) rows.
Proof. apply (strategy_table 100 105 (1/4) (5/100) (2/10)); lra. Defined.

(** ** The dictionary and its readers *)

(** X28. Whatever the parameters, a dictionary that [calculate_greeks]
    returns has exactly the five keys, so reading one of them, as the
    page does with ['delta'] and ['gamma'], never raises [KeyError]. *)
Theorem greeks_lookup_never_fails S K T r sigma ot (g : gmap string R) name :
  calculate_greeks S K T r sigma ot = Ok g -> name ∈ greek_names ->
  dom g = greek_names /\ exists v, getitem g name = Return v.
Proof.
  intros Hg Hn. pose proof (greeks_never_partial _ _ _ _ _ _ _ Hg) as Hdom.
  split; [exact Hdom |].
  rewrite <- Hdom in Hn. apply elem_of_dom in Hn as [v Hv].
  exists v. unfold getitem. rewrite Hv. reflexivity.
Qed.

Lemma greeks_lookup_never_fails_witness :
  dom ({[ "delta" := 0; "gamma" := 0; "theta" := 0; "vega" := 0;
          "rho" := 0 ]} : gmap string R) = greek_names /\
  exists v, getitem {[ "delta" := 0; "gamma" := 0; "theta" := 0; "vega" := 0;
                       "rho" := 0 ]} "gamma" = Return v.
Proof.
  apply (greeks_lookup_never_fails 100 105 0 (5/100) (2/10) "call" _ "gamma").
  - apply greeks_guard. lra.
  - unfold greek_names. set_solver.
Defined.
